(** * edgie: a shallow embedding of the tiered file cache, the download
    fallback chain and the upload sync worker.

    Sources embedded:
    - [common/filecache.go]: [FileCache], [init], [Read], [Write],
      [updateMRU], [evictMemory], [evictDisk];
    - [service/lib.go]: [Download], [Upload], [S3SyncOnce], [S3SyncForever];
    - the locking discipline of [FileCache.Read], as an interleaving
      semantics of concurrent readers. *)

From Stdlib Require Import ZArith String Ascii.
From Stdlib Require Init.Byte.
From stdpp Require Import base gmap sets list strings.

Open Scope Z_scope.

(** ** Go values *)

(** A Go [[]byte]; a nil slice is the empty list. *)
Abbreviation bytes := (list Byte.byte).

(** Go's [int64] arithmetic wraps around modulo 2^64. *)
Definition wrap64 (z : Z) : Z :=
  let r := z mod 2 ^ 64 in
  if r >=? 2 ^ 63 then r - 2 ^ 64 else r.

(** [int64(len(b))]. *)
Definition blen (b : bytes) : Z := Z.of_nat (length b).

(** The [errno] values that the file operations used here report. *)
Inductive errno := ENOENT | EACCES | EISDIR.

(** Go [error] values met on these paths.  [ErrNotExist] is the sentinel
    [os.ErrNotExist]; [os.Stat], [os.ReadFile], [os.WriteFile] and
    [os.Remove] never return it directly but a [*PathError] wrapping an
    errno; [S3Error] is the [fmt.Errorf(S3ErrorPrefix + ...)] value of
    [S3FileDownload]; [Errorf] is any other [fmt.Errorf] value. *)
Inductive error :=
| ErrNotExist
| PathError (op path : string) (e : errno)
| ErrUnexpectedEOF
| S3Error (key : string)
| Errorf (msg : string).

Inductive result (A : Type) :=
| Ok (a : A)
| Err (e : error).
Arguments Ok {A} a.
Arguments Err {A} e.

(** ** The cache (common/filecache.go) *)

Record FileCacheConfig := {
  DirPath : string;
  DiskBytesMax : Z;
  RAMBytesMax : Z
}.

Record fileCacheEntry := {
  Data : bytes;
  InMemory : bool;
  Size : Z
}.

(** [FileCache]: the [index] (an [xsync.MapOf] of entry pointers; each key
    owns its own pointer, so a map of entry values), the recency list
    [mruList] (front = most recently used) and [mruMap], the set of keys
    that have a node in [mruList], and the two byte counters. *)
Record FileCache := {
  index : gmap string fileCacheEntry;
  config : FileCacheConfig;
  mruList : list string;
  mruMap : gset string;
  usedDiskBytes : Z;
  usedMemoryBytes : Z
}.

(** The backing directory [config.DirPath]: files by name relative to it,
    and the names whose [os.WriteFile] or [os.Remove] is refused by the
    file system (for instance for lack of permission). *)
Record Disk := {
  files : gmap string bytes;
  no_write : gset string;
  no_remove : gset string
}.

Record World := {
  cache : FileCache;
  disk : Disk
}.

Definition set_index (i : gmap string fileCacheEntry) (fc : FileCache) :=
  {| index := i; config := config fc; mruList := mruList fc;
     mruMap := mruMap fc; usedDiskBytes := usedDiskBytes fc;
     usedMemoryBytes := usedMemoryBytes fc |}.

Definition set_mru (l : list string) (m : gset string) (fc : FileCache) :=
  {| index := index fc; config := config fc; mruList := l; mruMap := m;
     usedDiskBytes := usedDiskBytes fc;
     usedMemoryBytes := usedMemoryBytes fc |}.

Definition set_counters (dsk mem : Z) (fc : FileCache) :=
  {| index := index fc; config := config fc; mruList := mruList fc;
     mruMap := mruMap fc; usedDiskBytes := dsk; usedMemoryBytes := mem |}.

Definition set_files (f : gmap string bytes) (d : Disk) :=
  {| files := f; no_write := no_write d; no_remove := no_remove d |}.

(** [os.ReadFile(filepath.Join(DirPath, name))]; the directory holds
    regular files only, so the one failure modelled is a missing file. *)
Definition ReadFile (d : Disk) (name : string) : result bytes :=
  match files d !! name with
  | Some b => Ok b
  | None => Err (PathError "open" name ENOENT)
  end.

(** [os.WriteFile(filepath.Join(DirPath, name), data, 0664)]: full
    overwrite; the one failure modelled is a refused open, before the
    file is created or truncated. *)
Definition WriteFile (d : Disk) (name : string) (data : bytes) : result Disk :=
  if decide (name ∈ no_write d) then Err (PathError "open" name EACCES)
  else Ok (set_files (<[name := data]> (files d)) d).

(** [os.Stat(fullPath)] succeeds. *)
Definition Stat (d : Disk) (name : string) : bool :=
  bool_decide (is_Some (files d !! name)).

(** [os.Remove(fullPath)]. *)
Definition Remove (d : Disk) (name : string) : result Disk :=
  if decide (name ∈ no_remove d) then Err (PathError "remove" name EACCES)
  else Ok (set_files (delete name (files d)) d).

(** [mruList.MoveToFront(elem)]: [mruMap] holds one node per key, so the
    node of [k] is the occurrence of [k]. *)
Definition move_to_front (k : string) (l : list string) : list string :=
  k :: filter (fun x => x ≠ k) l.

(** [updateMRU]. *)
Definition updateMRU (fc : FileCache) (fileName : string) : FileCache :=
  if decide (fileName ∈ mruMap fc) then
    set_mru (move_to_front fileName (mruList fc)) (mruMap fc) fc
  else set_mru (fileName :: mruList fc) ({[fileName]} ∪ mruMap fc) fc.

(** [NewFileCache]. *)
Definition NewFileCache (cfg : FileCacheConfig) : FileCache :=
  {| index := ∅; config := cfg; mruList := []; mruMap := ∅;
     usedDiskBytes := 0; usedMemoryBytes := 0 |}.

(** The indexing loop of [init], given the regular files the directory
    scan found, as ([filepath.Base(file)], [info.Size()]) pairs. *)
Definition init_index (fc : FileCache) (scanned : list (string * Z)) : FileCache :=
  fold_left
    (fun fc '(fileName, sz) =>
       set_counters (wrap64 (usedDiskBytes fc + sz)) (usedMemoryBytes fc)
         (set_index (<[fileName := {| Data := []; Size := sz; InMemory := false |}]>
                       (index fc)) fc))
    scanned fc.

(** [FileCache.Read]: the returned reader yields the returned bytes. *)
Definition Read (w : World) (filePath : string) : World * result bytes :=
  let fc := cache w in
  match index fc !! filePath with
  | None => (w, Err ErrNotExist)
  | Some entry =>
      if negb (InMemory entry) then
        match ReadFile (disk w) filePath with
        | Err e => (w, Err e)
        | Ok data =>
            let entry' := {| Data := data; InMemory := true; Size := Size entry |} in
            let fc1 := set_index (<[filePath := entry']> (index fc)) fc in
            let fc2 := set_counters (usedDiskBytes fc1)
                         (wrap64 (usedMemoryBytes fc1 + blen data)) fc1 in
            ({| cache := updateMRU fc2 filePath; disk := disk w |}, Ok data)
        end
      else ({| cache := updateMRU fc filePath; disk := disk w |}, Ok (Data entry))
  end.

(** [FileCache.Write]; the input reader is given by what [io.ReadAll]
    returns on it ([None]: the read fails). *)
Definition Write (w : World) (fileName : string) (inp : option bytes)
  : World * result unit :=
  let fc := cache w in
  let '(entry, entrySizeStart, idx) :=
    match index fc !! fileName with
    | None => let e := {| Data := []; InMemory := false; Size := 0 |} in
              (e, 0, <[fileName := e]> (index fc))
    | Some e => (e, Size e, index fc)
    end in
  let fc1 := set_index idx fc in
  match inp with
  | None => ({| cache := fc1; disk := disk w |}, Err ErrUnexpectedEOF)
  | Some data =>
      match WriteFile (disk w) fileName data with
      | Err e => ({| cache := fc1; disk := disk w |}, Err e)
      | Ok d' =>
          let entry' := {| Data := data; Size := blen data; InMemory := true |} in
          let fc2 := set_index (<[fileName := entry']> idx) fc1 in
          let mem1 := wrap64 (usedMemoryBytes fc2 + Size entry') in
          let mem2 := wrap64 (mem1 - entrySizeStart) in
          let fc3 := set_counters (usedDiskBytes fc2) mem2 fc2 in
          ({| cache := updateMRU fc3 fileName; disk := d' |}, Ok tt)
      end
  end.

(** [threshold := (max * 90) / 100] in [int64]: Go's [/] truncates toward
    zero. *)
Definition threshold (max : Z) : Z := Z.quot (wrap64 (max * 90)) 100.

Definition mem_threshold (fc : FileCache) : Z := threshold (RAMBytesMax (config fc)).
Definition disk_threshold (fc : FileCache) : Z := threshold (DiskBytesMax (config fc)).

(** [fc.mruList.Back()]. *)
Definition Back (l : list string) : option string := last l.

(** [fc.mruList.Remove(oldest)] with [oldest = Back()], and
    [delete(fc.mruMap, fileName)]. *)
Definition drop_oldest (fileName : string) (fc : FileCache) : FileCache :=
  set_mru (removelast (mruList fc)) (mruMap fc ∖ {[fileName]}) fc.

(** One iteration of the [evictMemory] loop body, after [Back()] gave
    [fileName].  The sweep runs under [fc.mutex], so the re-check of
    [entry.InMemory] under the entry lock sees the value just read. *)
Definition evictMemory_body (fc : FileCache) (fileName : string) : FileCache :=
  let fc1 :=
    match index fc !! fileName with
    | Some entry =>
        if InMemory entry then
          let entry' := {| Data := []; InMemory := false; Size := Size entry |} in
          set_counters (usedDiskBytes fc) (wrap64 (usedMemoryBytes fc - Size entry))
            (set_index (<[fileName := entry']> (index fc)) fc)
        else fc
    | None => fc
    end in
  drop_oldest fileName fc1.

(** The [evictMemory] loop.  Each iteration removes one node of
    [mruList], so [length mruList] iterations always suffice: [evictMemory]
    below runs it with that bound. *)
Fixpoint evictMemory_go (fuel : nat) (fc : FileCache) : FileCache :=
  match fuel with
  | O => fc
  | S n =>
      if (usedMemoryBytes fc >? mem_threshold fc) && (0 <? length (mruList fc))%nat
      then
        match Back (mruList fc) with
        | None => fc
        | Some fileName => evictMemory_go n (evictMemory_body fc fileName)
        end
      else fc
  end.

Definition evictMemory (fc : FileCache) : FileCache :=
  evictMemory_go (length (mruList fc)) fc.

(** The index and counter update of [evictDisk], after the file was
    removed (or could not be stat'ed). *)
Definition evictDisk_drop (fc : FileCache) (fileName : string) : FileCache :=
  let fc1 :=
    match index fc !! fileName with
    | Some entry =>
        let mem := if InMemory entry
                   then wrap64 (usedMemoryBytes fc - Size entry)
                   else usedMemoryBytes fc in
        set_counters (wrap64 (usedDiskBytes fc - Size entry)) mem
          (set_index (delete fileName (index fc)) fc)
    | None => fc
    end in
  drop_oldest fileName fc1.

(** The [evictDisk] loop, run for at most [fuel] iterations: [None] when
    the loop has not exited after [fuel] iterations.  A failed [os.Remove]
    is logged and the loop [continue]s with the state unchanged. *)
Fixpoint evictDisk_go (fuel : nat) (w : World) : option World :=
  match fuel with
  | O => None
  | S n =>
      let fc := cache w in
      if (usedDiskBytes fc >? disk_threshold fc) && (0 <? length (mruList fc))%nat
      then
        match Back (mruList fc) with
        | None => Some w
        | Some fileName =>
            if Stat (disk w) fileName then
              match Remove (disk w) fileName with
              | Err _ => evictDisk_go n w
              | Ok d' =>
                  evictDisk_go n {| cache := evictDisk_drop fc fileName; disk := d' |}
              end
            else
              evictDisk_go n {| cache := evictDisk_drop fc fileName; disk := disk w |}
        end
      else Some w
  end.

(** ** Slash-separated paths (Go's path/filepath on Unix) *)

Fixpoint split_slash_aux (s cur : string) : list string :=
  match s with
  | EmptyString => [cur]
  | String c s' =>
      if Ascii.eqb c "/"%char then cur :: split_slash_aux s' ""
      else split_slash_aux s' (cur +:+ String c "")
  end.

(** [strings.Split(s, "/")]. *)
Definition split_slash (s : string) : list string := split_slash_aux s "".

(** [strings.Join(l, "/")]. *)
Fixpoint join_slash (l : list string) : string :=
  match l with
  | [] => ""
  | [x] => x
  | x :: l' => x +:+ "/" +:+ join_slash l'
  end.

(** One element of the lexical processing of [filepath.Clean]; the output
    is kept reversed. *)
Definition clean_step (rooted : bool) (out : list string) (c : string) : list string :=
  if String.eqb c "" || String.eqb c "." then out
  else if String.eqb c ".." then
    match out with
    | top :: rest => if String.eqb top ".." then c :: out else rest
    | [] => if rooted then [] else [c]
    end
  else c :: out.

(** [filepath.Clean]. *)
Definition Clean (p : string) : string :=
  if String.eqb p "" then "."
  else
    let rooted := String.prefix "/" p in
    let body := join_slash (rev (fold_left (clean_step rooted) (split_slash p) [])) in
    if rooted then "/" +:+ body
    else if String.eqb body "" then "." else body.

Fixpoint drop_common (b t : list string) : list string * list string :=
  match b, t with
  | x :: b', y :: t' => if String.eqb x y then drop_common b' t' else (b, t)
  | _, _ => (b, t)
  end.

(** [filepath.Rel(basepath, targpath)]; [None] is its error. *)
Definition Rel (basepath targpath : string) : option string :=
  let base := Clean basepath in
  let targ := Clean targpath in
  if String.eqb targ base then Some "."
  else
    let base := if String.eqb base "." then "" else base in
    if negb (Bool.eqb (String.prefix "/" base) (String.prefix "/" targ)) then None
    else
      let nonempty := fun c => negb (String.eqb c "") in
      let '(br, tr) := drop_common (filter nonempty (split_slash base))
                                   (filter nonempty (split_slash targ)) in
      match br with
      | c :: _ => if String.eqb c ".." then None
                  else Some (join_slash (repeat ".." (length br) ++ tr))
      | [] => Some (join_slash tr)
      end.

(** A local file system: regular files by cleaned path; a directory exists
    when some file lies below it. *)
Definition is_dir (fs : gmap string bytes) (p : string) : bool :=
  existsb (fun k => String.prefix (p +:+ "/") k) (map fst (map_to_list fs)).

Fixpoint insert_sorted (x : string) (l : list string) : list string :=
  match l with
  | [] => [x]
  | y :: l' => if String.leb x y then x :: l else y :: insert_sorted x l'
  end.

(** [sort.Strings]: byte-wise order. *)
Definition sort_strings (l : list string) : list string := fold_right insert_sorted [] l.

(** [filepath.Glob(filepath.Join(dir, "**"))]: in [filepath.Match] a [**]
    is a [*], so this is every entry (file or directory) directly in
    [dir], joined to [dir], in sorted order; an unreadable or missing
    [dir] gives no match and no error. *)
Definition glob_entries (dir0 : string) (fs : gmap string bytes) : list string :=
  let dir := Clean dir0 in
  let pre := if String.eqb dir "." then "" else dir +:+ "/" in
  let child := fun k =>
    if String.prefix pre k then
      Some (pre +:+ hd "" (split_slash (substring (String.length pre)
                                        (String.length k - String.length pre) k)))
    else None in
  sort_strings (remove_dups (omap child (map fst (map_to_list fs)))).


(** ** The request orchestrator and the sync worker (service/lib.go) *)

(** [service.Conf], restricted to the fields these paths read. *)
Record Conf := {
  CacheDir : string;
  UploadDir : string
}.

(** The observable effects of [Download] and [S3SyncOnce], in order. *)
Inductive event :=
| EvCacheGet (p : string)
| EvStat (p : string)
| EvReadFile (p : string)
| EvCachePut (p : string)
| EvS3Get (key : string)
| EvS3Put (src key : string).

(** [os.Stat] on the local file system. *)
Definition os_Stat (fs : gmap string bytes) (p : string) : result unit :=
  if bool_decide (is_Some (fs !! p)) || is_dir fs p then Ok tt
  else Err (PathError "stat" p ENOENT).

(** [os.ReadFile] on the local file system. *)
Definition os_ReadFile (fs : gmap string bytes) (p : string) : result bytes :=
  match fs !! p with
  | Some b => Ok b
  | None => if is_dir fs p then Err (PathError "read" p EISDIR)
            else Err (PathError "open" p ENOENT)
  end.

(** [common.S3FileDownload]: [GetObject] on the bucket, whose content is
    [remote]. *)
Definition S3FileDownload (remote : gmap string bytes) (key : string) : result bytes :=
  match remote !! key with
  | Some b => Ok b
  | None => Err (S3Error key)
  end.

Section Download.

(** The cache object [Download] calls: [Get] looks an entry up, [Put]
    admits bytes and returns the entry it stored. *)
Context {CacheT : Type}.
Variable Get : CacheT -> string -> result fileCacheEntry.
Variable Put : CacheT -> string -> bytes -> CacheT * result fileCacheEntry.

(** Go's [err == os.ErrNotExist]: identity with the sentinel value. *)
Definition is_ErrNotExist {A} (r : result A) : bool :=
  match r with Err ErrNotExist => true | _ => false end.

(** [Service.Download] over the cache [c], the local file system [fs]
    (holding the upload directory) and the bucket [remote]. *)
Definition Download (conf : Conf) (c : CacheT) (fs remote : gmap string bytes)
  (srcPath0 : string) : CacheT * list event * result bytes :=
  let srcPath := Clean srcPath0 in
  (* check the cache first... *)
  let r1 := Get c srcPath in
  (* not in cache... check the upload folder *)
  let '(c2, ev2, r2) :=
    if is_ErrNotExist r1 then
      let uploadFilePath := Clean (UploadDir conf +:+ "/" +:+ srcPath) in
      match os_Stat fs uploadFilePath with
      | Err e => (c, [EvStat uploadFilePath], Err e)
      | Ok _ =>
          match os_ReadFile fs uploadFilePath with
          | Err e => (c, [EvStat uploadFilePath; EvReadFile uploadFilePath], Err e)
          | Ok data =>
              let '(c', r) := Put c srcPath data in
              (c', [EvStat uploadFilePath; EvReadFile uploadFilePath;
                    EvCachePut srcPath], r)
          end
      end
    else (c, [], r1) in
  (* not in upload folder... check aws... *)
  let '(c3, ev3, r3) :=
    if is_ErrNotExist r2 then
      match S3FileDownload remote srcPath with
      | Err e => (c2, [EvS3Get srcPath], Err e)
      | Ok body =>
          let '(c', r) := Put c2 srcPath body in
          (c', [EvS3Get srcPath; EvCachePut srcPath], r)
      end
    else (c2, [], r2) in
  let evs := EvCacheGet srcPath :: ev2 ++ ev3 in
  match r3 with
  | Err e => (c3, evs, Err e)
  | Ok fce => (c3, evs, Ok (Data fce))
  end.

End Download.

(** The state the sync worker acts on: the local file system (upload and
    serving directories), the bucket, and the keys whose [PutObject] the
    store refuses. *)
Record SyncWorld := {
  fs : gmap string bytes;
  remote : gmap string bytes;
  put_fail : gset string
}.

(** [common.S3FileUpload(client, srcPath, bucket, dstPath)]: [os.Open] and
    then [PutObject] with the file as body (reading a directory fails). *)
Definition S3FileUpload (w : SyncWorld) (srcPath dstPath : string) : result SyncWorld :=
  match fs w !! srcPath with
  | Some data =>
      if decide (dstPath ∈ put_fail w) then Err (Errorf "PutObject")
      else Ok {| fs := fs w; remote := <[dstPath := data]> (remote w);
                 put_fail := put_fail w |}
  | None =>
      if is_dir (fs w) srcPath then Err (PathError "read" srcPath EISDIR)
      else Err (PathError "open" srcPath ENOENT)
  end.

(** [os.Remove] of a regular file. *)
Definition os_Remove (w : SyncWorld) (p : string) : result SyncWorld :=
  match fs w !! p with
  | Some _ => Ok {| fs := delete p (fs w); remote := remote w; put_fail := put_fail w |}
  | None => Err (PathError "remove" p ENOENT)
  end.

(** The [for _, srcPath := range srcPaths] loop of [S3SyncOnce]; every
    failure returns from the function. *)
Fixpoint S3SyncOnce_loop (conf : Conf) (srcPaths : list string) (w : SyncWorld)
  : SyncWorld * list event * option error :=
  match srcPaths with
  | [] => (w, [], None)
  | srcPath :: rest =>
      match Rel (CacheDir conf) srcPath with
      | None => (w, [], Some (Errorf "could not get relative path for cachefile"))
      | Some dstPath =>
          match S3FileUpload w srcPath dstPath with
          | Err e => (w, [EvS3Put srcPath dstPath], Some (Errorf "s3 upload failed"))
          | Ok w1 =>
              match os_Remove w1 srcPath with
              | Err e => (w1, [EvS3Put srcPath dstPath],
                          Some (Errorf "failed to remove file from uploads"))
              | Ok w2 =>
                  let '(w3, evs, r) := S3SyncOnce_loop conf rest w2 in
                  (w3, EvS3Put srcPath dstPath :: evs, r)
              end
          end
      end
  end.

(** [Service.S3SyncOnce]. *)
Definition S3SyncOnce (conf : Conf) (w : SyncWorld) : SyncWorld * list event * option error :=
  let srcPaths := glob_entries (UploadDir conf) (fs w) in
  match srcPaths with
  | [] => (w, [], None)
  | _ => S3SyncOnce_loop conf srcPaths w
  end.

(** [n] cycles of [S3SyncForever]; the error of a cycle is logged. *)
Fixpoint S3SyncCycles (n : nat) (conf : Conf) (w : SyncWorld) : SyncWorld * list event :=
  match n with
  | O => (w, [])
  | S m =>
      let '(w1, evs1, _) := S3SyncOnce conf w in
      let '(w2, evs2) := S3SyncCycles m conf w1 in
      (w2, evs1 ++ evs2)
  end.

(** ** The byte counters against the index *)

Definition mem_sum (idx : gmap string fileCacheEntry) : Z :=
  map_fold (fun _ e acc => if InMemory e then acc + Size e else acc) 0 idx.

Definition disk_sum (idx : gmap string fileCacheEntry) : Z :=
  map_fold (fun _ e acc => acc + Size e) 0 idx.

(** [usedMemoryBytes] is the total [Size] of the in-memory entries and
    [usedDiskBytes] the total [Size] of all entries. *)
Definition counters_match (fc : FileCache) : bool :=
  Z.eqb (usedMemoryBytes fc) (mem_sum (index fc)) &&
  Z.eqb (usedDiskBytes fc) (disk_sum (index fc)).

(** ** Concrete configurations used below *)

Definition cfg_small : FileCacheConfig :=
  {| DirPath := "cache"; DiskBytesMax := 4096; RAMBytesMax := 1024 |}.

Definition empty_disk : Disk := {| files := ∅; no_write := ∅; no_remove := ∅ |}.

(** A cache started on the empty directory. *)
Definition w_fresh : World :=
  {| cache := init_index (NewFileCache cfg_small) []; disk := empty_disk |}.

(** A cache started on a directory holding one 5-byte file [k1]. *)
Definition w_one_file : World :=
  {| cache := init_index (NewFileCache cfg_small) [("k1", 5)];
     disk := {| files := <["k1" := repeat Byte.x00 5]> ∅; no_write := ∅;
                no_remove := ∅ |} |}.

(** A cache whose only entry [a] (10 bytes) is in memory, over a 10-byte
    memory budget. *)
Definition fc_hot_a : FileCache :=
  {| index := <["a" := {| Data := repeat Byte.x01 10; InMemory := true; Size := 10 |}]> ∅;
     config := {| DirPath := "cache"; DiskBytesMax := 4096; RAMBytesMax := 10 |};
     mruList := ["a"]; mruMap := {["a"]};
     usedDiskBytes := 10; usedMemoryBytes := 10 |}.

(** A cache started on a directory holding one 10-byte file [a] that the
    process may read but not delete, with a 10-byte disk budget; [a] has
    then been read once and the memory pass of the first tick has run. *)
Definition w_undeletable_start : World :=
  {| cache := init_index
                (NewFileCache {| DirPath := "cache"; DiskBytesMax := 10;
                                 RAMBytesMax := 1024 |}) [("a", 10)];
     disk := {| files := <["a" := repeat Byte.x00 10]> ∅; no_write := ∅;
                no_remove := {["a"]} |} |}.

Definition w_undeletable : World :=
  let w1 := fst (Read w_undeletable_start "a") in
  {| cache := evictMemory (cache w1); disk := disk w1 |}.

(** The sync worker as [CmdExecute] configures it: [Conf.CacheDir] is
    never set; the upload directory is given relative to the working
    directory. *)
Definition conf_sync : Conf := {| CacheDir := ""; UploadDir := "up" |}.

(** Two staged files; the store refuses the upload of the first. *)
Definition sw_two_staged : SyncWorld :=
  {| fs := <["up/b" := [Byte.x02]]> (<["up/a" := [Byte.x01]]> ∅);
     remote := ∅; put_fail := {["up/a"]} |}.

(** One staged file; the store accepts it. *)
Definition sw_one_staged : SyncWorld :=
  {| fs := <["up/a" := [Byte.x01]]> ∅; remote := ∅; put_fail := ∅ |}.

(** A cache that reports every key absent, and stores what it is given. *)
Definition get_miss (c : unit) (p : string) : result fileCacheEntry := Err ErrNotExist.

Definition put_entry (c : unit) (p : string) (d : bytes) : unit * result fileCacheEntry :=
  (c, Ok {| Data := d; InMemory := true; Size := blen d |}).

(** A cache whose [Put] reports [os.ErrNotExist]. *)
Definition put_miss (c : unit) (p : string) (d : bytes) : unit * result fileCacheEntry :=
  (c, Err ErrNotExist).

(** ** Concurrent readers (the locking of [FileCache.Read])

    Goroutines running [Read(k)] interleave at the points where [Read]
    touches shared state: the index lookup, [entry.Mutex.Lock()], the
    [InMemory] test, the end of [os.ReadFile] (with the entry update and
    the counter update under [fc.mutex], which no reader holds across
    steps) and the deferred [entry.Mutex.Unlock()].  [diskReads] counts the
    [os.ReadFile] calls (the [cacheReadsDisk] counter). *)
Module ReadLocks.

Local Open Scope nat_scope.

Inductive pc := PLoad | PLock | PCheck | PDiskRead | PUnlock | PDone.

Record State := {
  threads : list (string * pc);
  inMem : gset string;
  locked : gset string;
  diskReads : nat
}.

Definition mk (ts : list (string * pc)) (m l : gset string) (n : nat) : State :=
  {| threads := ts; inMem := m; locked := l; diskReads := n |}.

Section Step.
(** [fc.index.Load(k)] succeeds; [os.ReadFile] of [k] succeeds. *)
Variable indexed : string -> bool.
Variable readable : string -> bool.

Inductive step : State -> State -> Prop :=
| step_load_miss s i k :
    threads s !! i = Some (k, PLoad) -> indexed k = false ->
    step s (mk (<[i := (k, PDone)]> (threads s)) (inMem s) (locked s) (diskReads s))
| step_load_hit s i k :
    threads s !! i = Some (k, PLoad) -> indexed k = true ->
    step s (mk (<[i := (k, PLock)]> (threads s)) (inMem s) (locked s) (diskReads s))
| step_lock s i k :
    threads s !! i = Some (k, PLock) -> k ∉ locked s ->
    step s (mk (<[i := (k, PCheck)]> (threads s)) (inMem s) ({[k]} ∪ locked s)
              (diskReads s))
| step_check_ram s i k :
    threads s !! i = Some (k, PCheck) -> k ∈ inMem s ->
    step s (mk (<[i := (k, PUnlock)]> (threads s)) (inMem s) (locked s) (diskReads s))
| step_check_disk s i k :
    threads s !! i = Some (k, PCheck) -> k ∉ inMem s ->
    step s (mk (<[i := (k, PDiskRead)]> (threads s)) (inMem s) (locked s)
              (S (diskReads s)))
| step_read_ok s i k :
    threads s !! i = Some (k, PDiskRead) -> readable k = true ->
    step s (mk (<[i := (k, PUnlock)]> (threads s)) ({[k]} ∪ inMem s) (locked s)
              (diskReads s))
| step_read_err s i k :
    threads s !! i = Some (k, PDiskRead) -> readable k = false ->
    step s (mk (<[i := (k, PUnlock)]> (threads s)) (inMem s) (locked s) (diskReads s))
| step_unlock s i k :
    threads s !! i = Some (k, PUnlock) ->
    step s (mk (<[i := (k, PDone)]> (threads s)) (inMem s) (locked s ∖ {[k]})
              (diskReads s)).
End Step.

(** One reader per key of [ks], all about to look their key up; [m] are
    the keys already in memory, no entry lock is held. *)
Definition init (ks : list string) (m : gset string) : State :=
  mk ((fun k => (k, PLoad)) <$> ks) m ∅ 0.

Fixpoint count_where {A} (f : A -> bool) (l : list A) : nat :=
  match l with
  | [] => 0
  | x :: l' => (if f x then 1 else 0) + count_where f l'
  end.

Definition all_done (s : State) : bool :=
  forallb (fun t => match snd t with PDone => true | _ => false end) (threads s).

(** The reader holds the entry lock. *)
Definition in_crit (p : pc) : bool :=
  match p with PCheck | PDiskRead | PUnlock => true | _ => false end.

Definition is_reading (p : pc) : bool :=
  match p with PDiskRead => true | _ => false end.

(** The reader has passed the [InMemory] test. *)
Definition past_check (p : pc) : bool :=
  match p with PDiskRead | PUnlock | PDone => true | _ => false end.

Definition returned (p : pc) : bool :=
  match p with PUnlock | PDone => true | _ => false end.

Definition ncrit (s : State) : nat := count_where (fun t => in_crit (snd t)) (threads s).
Definition nreading (s : State) : nat := count_where (fun t => is_reading (snd t)) (threads s).
Definition npast (s : State) : nat := count_where (fun t => past_check (snd t)) (threads s).
Definition nreturned (s : State) : nat := count_where (fun t => returned (snd t)) (threads s).

(** [1] when [k] is in [X], else [0]. *)
Definition memb (k : string) (X : gset string) : nat := if bool_decide (k ∈ X) then 1 else 0.

(** Readers of one key [k], [n] of them. *)
Definition same_key_inv (k : string) (n : nat) (s : State) : Prop :=
  Forall (fun t => fst t = k) (threads s) /\ length (threads s) = n /\
  memb k (locked s) = ncrit s /\
  ((memb k (inMem s) = 1 /\ diskReads s = 1 /\ nreading s = 0) \/
   (memb k (inMem s) = 0 /\ diskReads s = nreading s)) /\
  (1 <= nreturned s -> memb k (inMem s) = 1)%nat.

(** Reader [i] reads key [ks !! i]. *)
Definition distinct_inv (ks : list string) (s : State) : Prop :=
  length (threads s) = length ks /\
  (forall i k p, threads s !! i = Some (k, p) ->
     ks !! i = Some k /\
     memb k (inMem s) <= (if returned p then 1 else 0) /\
     memb k (locked s) = (if in_crit p then 1 else 0)) /\
  diskReads s = npast s.

(** Readers [0 .. j-1] are all inside [os.ReadFile], the others have not
    started. *)
Definition reading_prefix (ks : list string) (j : nat) : State :=
  mk (((fun k => (k, PDiskRead)) <$> take j ks) ++ ((fun k => (k, PLoad)) <$> drop j ks))
     ∅ (list_to_set (take j ks)) j.

End ReadLocks.

(** ** Staging an upload (service/lib.go) *)

(** [path.Dir]: [Split] at the last slash, then [Clean] of the part
    before it (the slash kept). *)
Definition path_Dir (p : string) : string :=
  let parts := split_slash p in
  Clean (if (length parts <=? 1)%nat then "" else join_slash (removelast parts) +:+ "/").

(** The directories [os.MkdirAll] walks for a cleaned [dir]: every
    non-empty prefix of its elements. *)
Definition dir_chain (dir : string) : list string :=
  let parts := split_slash dir in
  filter (fun q => negb (String.eqb q ""))
    (map (fun n => join_slash (take n parts)) (seq 1 (length parts))).

(** A directory exists when it was made ([dirs], for instance by
    [Service.Start]'s [os.MkdirAll(UploadDir)]) or a file lies below it. *)
Definition isdir_in (dirs : gset string) (fs : gmap string bytes) (p : string) : bool :=
  bool_decide (p ∈ dirs) || is_dir fs p.

(** [os.MkdirAll(dir, os.ModePerm)]: it fails when [dir] or one of its
    ancestors is a regular file, and otherwise makes the missing
    directories. *)
Definition MkdirAll (dirs : gset string) (fs : gmap string bytes) (dir : string)
  : option (gset string) :=
  if existsb (fun q => bool_decide (is_Some (fs !! q))) (dir_chain dir) then None
  else Some (dirs ∪ list_to_set (dir_chain dir)).

(** The upload body [srcR]: the bytes it yields, and whether it then fails
    instead of reaching EOF. *)
Record reader := {
  rd_data : bytes;
  rd_err : bool
}.

(** [Service.Upload(filePath, srcR)]: [os.Create] truncates or creates the
    file (it fails on a directory), and [io.Copy] writes every byte the
    reader yields before its error, if any. *)
Definition Upload (conf : Conf) (dirs : gset string) (fs : gmap string bytes)
  (filePath : string) (srcR : reader) : gset string * gmap string bytes * result unit :=
  let dstPath := Clean (UploadDir conf +:+ "/" +:+ filePath) in
  let dstDir := path_Dir dstPath in
  match MkdirAll dirs fs dstDir with
  | None => (dirs, fs, Err (Errorf "failed to create directory"))
  | Some dirs1 =>
      if isdir_in dirs1 fs dstPath then
        (dirs1, fs, Err (Errorf "failed to create the upload file"))
      else
        let fs1 := <[dstPath := rd_data srcR]> fs in
        if rd_err srcR then (dirs1, fs1, Err (Errorf "filed to write to file"))
        else (dirs1, fs1, Ok tt)
  end.

(** The service as [CmdExecute] builds it with the default upload
    directory: [Conf.CacheDir] is never set. *)
Definition conf_default : Conf :=
  {| CacheDir := ""; UploadDir := "/var/edgie/cache/upload" |}.


(** ** Invariants of the cache *)

(** The recency list holds one node per key, [mruMap] is the set of its
    keys, and every key that has a node is indexed. *)
Definition cache_wf (fc : FileCache) : Prop :=
  NoDup (mruList fc) /\ mruMap fc = list_to_set (mruList fc) /\
  Forall (fun k => k ∈ dom (index fc)) (mruList fc).

(** The entry [init] stores for a regular file of [sz] bytes. *)
Definition scanned_entry (sz : Z) : fileCacheEntry :=
  {| Data := []; Size := sz; InMemory := false |}.

(** The total size of the scanned files. *)
Definition scanned_total (scanned : list (string * Z)) : Z :=
  fold_right (fun p acc => snd p + acc) 0 scanned.

(** ** Facts about the helpers *)

Lemma index_updateMRU (fc : FileCache) (k : string) :
  index (updateMRU fc k) = index fc.
Proof. unfold updateMRU. by case_decide. Qed.

Lemma counters_updateMRU (fc : FileCache) (k : string) :
  usedDiskBytes (updateMRU fc k) = usedDiskBytes fc /\
  usedMemoryBytes (updateMRU fc k) = usedMemoryBytes fc.
Proof. unfold updateMRU. by case_decide. Qed.

Lemma Back_Some (l : list string) (k : string) :
  Back l = Some k -> l = removelast l ++ [k].
Proof.
  unfold Back. intros [l' ->]%last_Some. by rewrite removelast_last.
Qed.

Lemma Back_None (l : list string) : Back l = None -> l = [].
Proof. unfold Back. by intros ->%last_None. Qed.

Lemma length_removelast_Back (l : list string) (k : string) :
  Back l = Some k -> length (removelast l) = pred (length l).
Proof.
  intros H. rewrite (Back_Some l k H) at 2. rewrite length_app. simpl. lia.
Qed.

Lemma evictMemory_body_facts (fc : FileCache) (k : string) :
  config (evictMemory_body fc k) = config fc /\
  mruList (evictMemory_body fc k) = removelast (mruList fc) /\
  mruMap (evictMemory_body fc k) = mruMap fc ∖ {[k]} /\
  usedDiskBytes (evictMemory_body fc k) = usedDiskBytes fc /\
  dom (index (evictMemory_body fc k)) = dom (index fc) /\
  (forall e, index (evictMemory_body fc k) !! k = Some e -> InMemory e = false) /\
  (forall k' e, index (evictMemory_body fc k) !! k' = Some e -> InMemory e = true ->
                index fc !! k' = Some e).
Proof.
  unfold evictMemory_body, drop_oldest.
  destruct (index fc !! k) as [entry|] eqn:E; [destruct (InMemory entry) eqn:Em|];
    simpl; (split; [done|]); (split; [done|]); (split; [done|]); (split; [done|]).
  - split.
    + rewrite dom_insert_L. apply elem_of_dom_2 in E. set_solver.
    + split.
      * intros e. rewrite lookup_insert_eq. by intros [= <-].
      * intros k' e. destruct (decide (k' = k)) as [->|Hne].
        -- rewrite lookup_insert_eq. by intros [= <-].
        -- by rewrite lookup_insert_ne by congruence.
  - split; [done|]. split; [|done]. rewrite E. by intros e [= <-].
  - split; [done|]. split; [|done]. by rewrite E.
Qed.

Lemma evictMemory_go_facts (n : nat) (fc : FileCache) :
  config (evictMemory_go n fc) = config fc /\
  dom (index (evictMemory_go n fc)) = dom (index fc) /\
  mruMap (evictMemory_go n fc) ⊆ mruMap fc /\
  (forall k e, index (evictMemory_go n fc) !! k = Some e -> InMemory e = true ->
               index fc !! k = Some e) /\
  exists removed, mruList fc = mruList (evictMemory_go n fc) ++ removed /\
    forall k, k ∈ removed ->
      (k ∉ mruMap (evictMemory_go n fc)) /\
      forall e, index (evictMemory_go n fc) !! k = Some e -> InMemory e = false.
Proof.
  revert fc. induction n as [|n IH]; intros fc; simpl.
  { do 4 (split; [done|]). exists []. rewrite app_nil_r. split; [done|]. set_solver. }
  destruct (_ && _); [|do 4 (split; [done|]); exists []; rewrite app_nil_r; split; [done|]; set_solver].
  destruct (Back (mruList fc)) as [k|] eqn:Hb;
    [|do 4 (split; [done|]); exists []; rewrite app_nil_r; split; [done|]; set_solver].
  destruct (evictMemory_body_facts fc k) as (Hc & Hl & Hm & _ & Hd & Hk & Hin).
  destruct (IH (evictMemory_body fc k)) as (Hc' & Hd' & Hm' & Hin' & removed & Hl' & Hr').
  split; [congruence|]. split; [congruence|]. split; [set_solver|].
  split; [by eauto|].
  exists (removed ++ [k]). split.
  - rewrite (Back_Some _ _ Hb) at 1. rewrite <- Hl, Hl'. by rewrite app_assoc.
  - intros k' [Hk'|Hk'%list_elem_of_singleton]%elem_of_app; [by apply Hr'|subst k'].
    split; [set_solver|].
    intros e He. destruct (InMemory e) eqn:Ee; [|done].
    rewrite <- Ee. by apply Hk, (Hin' _ _ He).
Qed.

Lemma index_evictMemory_body_ne (fc : FileCache) (k k' : string) :
  k' ≠ k -> index (evictMemory_body fc k) !! k' = index fc !! k'.
Proof.
  intros Hne. unfold evictMemory_body, drop_oldest.
  destruct (index fc !! k) as [e|]; [destruct (InMemory e)|]; cbn; try done.
  by rewrite lookup_insert_ne by congruence.
Qed.

Lemma evictMemory_go_removed (n : nat) (fc : FileCache) :
  exists removed, mruList fc = mruList (evictMemory_go n fc) ++ removed /\
    forall k, k ∉ removed -> index (evictMemory_go n fc) !! k = index fc !! k.
Proof.
  revert fc. induction n as [|n IH]; intros fc; simpl.
  { exists []. rewrite app_nil_r. done. }
  destruct (_ && _); [|exists []; rewrite app_nil_r; done].
  destruct (Back (mruList fc)) as [k|] eqn:Hb; [|exists []; rewrite app_nil_r; done].
  destruct (evictMemory_body_facts fc k) as (_ & Hl & _).
  destruct (IH (evictMemory_body fc k)) as (removed & Hl' & Hr').
  exists (removed ++ [k]). split.
  - rewrite (Back_Some _ _ Hb) at 1. rewrite <- Hl, Hl'. by rewrite app_assoc.
  - intros k' Hk'. rewrite Hr' by set_solver.
    apply index_evictMemory_body_ne. set_solver.
Qed.

Lemma Read_index_dom (w : World) (k : string) :
  dom (index (cache (fst (Read w k)))) = dom (index (cache w)).
Proof.
  unfold Read.
  destruct (index (cache w) !! k) as [e|] eqn:E; [|done].
  destruct (negb (InMemory e)); [destruct (ReadFile (disk w) k) as [data|err]|]; simpl;
    rewrite ?index_updateMRU; simpl; try done.
  rewrite dom_insert_L. apply elem_of_dom_2 in E. set_solver.
Qed.

Lemma Write_index_dom (w : World) (k : string) (inp : option bytes) :
  dom (index (cache (fst (Write w k inp)))) = {[k]} ∪ dom (index (cache w)).
Proof.
  unfold Write. destruct (index (cache w) !! k) as [e|] eqn:E; simpl;
    (destruct inp as [v|]; [destruct (WriteFile (disk w) k v) as [d'|er]|]);
    simpl; rewrite ?index_updateMRU; simpl; rewrite ?dom_insert_L; try done.
  all: try apply elem_of_dom_2 in E; set_solver.
Qed.

Lemma evictMemory_go_exit (n : nat) (fc : FileCache) :
  (length (mruList fc) <= n)%nat ->
  usedMemoryBytes (evictMemory_go n fc) <= mem_threshold (evictMemory_go n fc) \/
  mruList (evictMemory_go n fc) = [].
Proof.
  revert fc. induction n as [|n IH]; intros fc Hlen; simpl.
  { right. by apply length_zero_iff_nil; lia. }
  destruct (usedMemoryBytes fc >? mem_threshold fc) eqn:Hgt; simpl.
  - destruct (0 <? length (mruList fc))%nat eqn:Hpos.
    + destruct (Back (mruList fc)) as [k|] eqn:Hb.
      * apply IH. destruct (evictMemory_body_facts fc k) as (_ & -> & _).
        rewrite (length_removelast_Back _ _ Hb). lia.
      * right. by apply Back_None.
    + right. apply Nat.ltb_ge in Hpos. by apply length_zero_iff_nil; lia.
  - left. rewrite Z.gtb_ltb, Z.ltb_ge in Hgt. lia.
Qed.

Lemma evictDisk_drop_config (fc : FileCache) (k : string) :
  config (evictDisk_drop fc k) = config fc.
Proof. unfold evictDisk_drop. by destruct (index fc !! k). Qed.

Lemma evictDisk_go_exit (n : nat) (w : World) :
  match evictDisk_go n w with
  | Some w' => config (cache w') = config (cache w) /\
               (usedDiskBytes (cache w') <= disk_threshold (cache w') \/
                mruList (cache w') = [])
  | None => True
  end.
Proof.
  revert w. induction n as [|n IH]; intros w; simpl; [done|].
  destruct (usedDiskBytes (cache w) >? disk_threshold (cache w)) eqn:Hgt; simpl.
  - destruct (0 <? length (mruList (cache w)))%nat eqn:Hpos; simpl.
    + destruct (Back (mruList (cache w))) as [k|] eqn:Hb.
      * destruct (Stat (disk w) k); [destruct (Remove (disk w) k) as [d'|e]|].
        -- specialize (IH {| cache := evictDisk_drop (cache w) k; disk := d' |}).
           destruct (evictDisk_go n _); [|done].
           destruct IH as [Hc IH]. split; [|done]. cbn [cache] in Hc.
           by rewrite Hc, evictDisk_drop_config.
        -- apply IH.
        -- specialize (IH {| cache := evictDisk_drop (cache w) k; disk := disk w |}).
           destruct (evictDisk_go n _); [|done].
           destruct IH as [Hc IH]. split; [|done]. cbn [cache] in Hc.
           by rewrite Hc, evictDisk_drop_config.
      * split; [done|]. right. by apply Back_None.
    + split; [done|]. right. apply Nat.ltb_ge in Hpos. by apply length_zero_iff_nil; lia.
  - split; [done|]. left. rewrite Z.gtb_ltb, Z.ltb_ge in Hgt. lia.
Qed.

(** ** The claims *)

(** C1 (code_bug).  The counters do not track the index: from a cache
    started on an empty directory, one [Write] of a 1-byte file leaves
    [usedDiskBytes] at 0 while the index holds 1 byte ([Write] never
    updates [usedDiskBytes]); from a cache started on a directory with a
    5-byte file [k1] (not loaded), rewriting [k1] with 1 byte subtracts
    the old size from [usedMemoryBytes] although it was never counted
    there, leaving -4 against an in-memory total of 1. *)
Theorem Write_counters_diverge :
  counters_match (cache w_fresh) = true /\
  counters_match (cache (fst (Write w_fresh "k1" (Some [Byte.x01])))) = false /\
  usedDiskBytes (cache (fst (Write w_fresh "k1" (Some [Byte.x01])))) = 0 /\
  disk_sum (index (cache (fst (Write w_fresh "k1" (Some [Byte.x01]))))) = 1 /\
  counters_match (cache w_one_file) = true /\
  usedMemoryBytes (cache (fst (Write w_one_file "k1" (Some [Byte.x01])))) = -4 /\
  mem_sum (index (cache (fst (Write w_one_file "k1" (Some [Byte.x01]))))) = 1.
Proof. vm_compute. repeat split. Qed.

(** C2 (code_bug).  When the cache reports [os.ErrNotExist] and the upload
    directory has no copy, [Download] returns the [*PathError] of
    [os.Stat] and never asks the bucket: the [err == os.ErrNotExist] test
    that guards the S3 fallback compares against the sentinel, which
    [os.Stat] never returns. *)
Theorem Download_staging_miss_skips_remote {C : Type}
  (Get : C -> string -> result fileCacheEntry)
  (Put : C -> string -> bytes -> C * result fileCacheEntry)
  (conf : Conf) (c : C) (fs remote : gmap string bytes) (p : string) :
  Get c (Clean p) = Err ErrNotExist ->
  fs !! Clean (UploadDir conf +:+ "/" +:+ Clean p) = None ->
  is_dir fs (Clean (UploadDir conf +:+ "/" +:+ Clean p)) = false ->
  Download Get Put conf c fs remote p =
    (c, [EvCacheGet (Clean p); EvStat (Clean (UploadDir conf +:+ "/" +:+ Clean p))],
     Err (PathError "stat" (Clean (UploadDir conf +:+ "/" +:+ Clean p)) ENOENT)).
Proof.
  intros Hget Hfs Hdir. unfold Download. rewrite Hget. simpl.
  unfold os_Stat. rewrite Hfs, Hdir. simpl. reflexivity.
Qed.

Lemma Download_staging_miss_skips_remote_witness :
  Download get_miss put_entry conf_sync tt ∅ (<["a" := [Byte.x07]]> ∅) "a" =
    (tt, [EvCacheGet "a"; EvStat "up/a"], Err (PathError "stat" "up/a" ENOENT)).
Proof.
  apply (Download_staging_miss_skips_remote get_miss put_entry conf_sync tt ∅
           (<["a" := [Byte.x07]]> ∅) "a"); vm_compute; reflexivity.
Defined.

(** C3 (counterexample).  The memory pass demotes [a], which keeps its
    index entry, but the pass also removes [a]'s recency-list node and
    its [mruMap] entry. *)
Lemma evictMemory_drops_recency_node :
  index (evictMemory fc_hot_a) !! "a" =
    Some {| Data := []; InMemory := false; Size := 10 |} /\
  mruList (evictMemory fc_hot_a) = [] /\
  "a" ∉ mruMap (evictMemory fc_hot_a).
Proof. vm_compute. split; [reflexivity|]. split; [reflexivity|]. set_solver. Qed.

(** C3 (amended).  A memory pass never removes an index entry.  The keys
    it visits are the ones it takes off the back of [mruList]; each of
    them loses its recency-list node and its [mruMap] entry, and is left
    NotLoaded if it is still indexed.  Every key whose entry the pass
    changed is one of them, so a key demoted from memory to NotLoaded no
    longer has an [mruMap] entry, nor a node in [mruList] when the list
    had no duplicate.  [Read] and [Write] never remove an index entry
    either ([Write] may add one), so only the disk pass removes them. *)
Theorem evictMemory_keeps_index_drops_recency (fc : FileCache) :
  dom (index (evictMemory fc)) = dom (index fc) /\
  (exists removed, mruList fc = mruList (evictMemory fc) ++ removed /\
    (forall k, k ∈ removed ->
      (k ∉ mruMap (evictMemory fc)) /\
      forall e, index (evictMemory fc) !! k = Some e -> InMemory e = false) /\
    (forall k, index (evictMemory fc) !! k ≠ index fc !! k -> k ∈ removed)) /\
  (forall k e e', index fc !! k = Some e -> InMemory e = true ->
     index (evictMemory fc) !! k = Some e' -> InMemory e' = false ->
     (k ∉ mruMap (evictMemory fc)) /\
     (NoDup (mruList fc) -> k ∉ mruList (evictMemory fc))) /\
  (forall (w : World) (k : string),
     dom (index (cache (fst (Read w k)))) = dom (index (cache w))) /\
  (forall (w : World) (k : string) (inp : option bytes),
     dom (index (cache w)) ⊆ dom (index (cache (fst (Write w k inp))))).
Proof.
  unfold evictMemory.
  destruct (evictMemory_go_facts (length (mruList fc)) fc) as (_ & Hd & _ & _ & r1 & Hl1 & Hr1).
  destruct (evictMemory_go_removed (length (mruList fc)) fc) as (r2 & Hl2 & Hr2).
  set (m := evictMemory_go (length (mruList fc)) fc) in *.
  assert (r1 = r2) as <-.
  { apply (app_inv_head (mruList m)). by rewrite <- Hl1, <- Hl2. }
  assert (forall k, index m !! k ≠ index fc !! k -> k ∈ r1) as Hch.
  { intros k Hne. destruct (decide (k ∈ r1)) as [|Hn]; [done|].
    exfalso. apply Hne. by apply Hr2. }
  split; [done|]. split; [exists r1; by auto|]. split; [|split].
  - intros k e e' He Hm He' Hm'.
    assert (k ∈ r1) as Hk by (apply Hch; rewrite He, He'; intros [= <-]; congruence).
    split; [by apply Hr1|].
    intros Hnd Hin. rewrite Hl1 in Hnd.
    apply NoDup_app in Hnd as (_ & Hdis & _). by apply (Hdis k).
  - intros w k. apply Read_index_dom.
  - intros w k inp. rewrite Write_index_dom. set_solver.
Qed.

Lemma S3SyncOnce_two_staged :
  S3SyncOnce conf_sync sw_two_staged =
    (sw_two_staged, [EvS3Put "up/a" "up/a"], Some (Errorf "s3 upload failed")).
Proof. vm_compute. reflexivity. Qed.

(** C4 (code_bug).  When the upload of the first staged file [up/a] fails,
    [S3SyncOnce] returns at once: [up/b] is not attempted in that cycle,
    nor in any later one, while [up/a] stays staged and is retried. *)
Theorem S3SyncOnce_failure_aborts_cycle :
  S3SyncOnce conf_sync sw_two_staged =
    (sw_two_staged, [EvS3Put "up/a" "up/a"], Some (Errorf "s3 upload failed")) /\
  forall n : nat,
    fst (S3SyncCycles n conf_sync sw_two_staged) = sw_two_staged /\
    Forall (fun ev => ev = EvS3Put "up/a" "up/a")
           (snd (S3SyncCycles n conf_sync sw_two_staged)).
Proof.
  split; [exact S3SyncOnce_two_staged|].
  induction n as [|n [IHw IHe]]; simpl; [split; [done|constructor]|].
  rewrite S3SyncOnce_two_staged.
  destruct (S3SyncCycles n conf_sync sw_two_staged) as [w2 evs2]. simpl in *.
  split; [done|]. constructor; [done|exact IHe].
Qed.

(** C5 (code_bug).  After a successful upload of the staged file [up/a],
    [S3SyncOnce] deletes it: the bucket holds it, but no file is left on
    the local file system, so the serving directory does not hold it. *)
Theorem S3SyncOnce_success_deletes_staged :
  let '(w', evs, r) := S3SyncOnce conf_sync sw_one_staged in
  r = None /\ evs = [EvS3Put "up/a" "up/a"] /\
  remote w' !! "up/a" = Some [Byte.x01] /\ fs w' = ∅.
Proof. vm_compute. repeat split. Qed.

Lemma evictDisk_undeletable_step (n : nat) :
  evictDisk_go (S n) w_undeletable = evictDisk_go n w_undeletable.
Proof. reflexivity. Qed.

(** C6 (code_bug).  When [os.Remove] of the least recently used file
    fails, [evictDisk] logs and [continue]s without touching the list or
    the counters, so the next iteration picks the same file again: for no
    number of iterations does the sweep exit, and it keeps [fc.mutex]. *)
Theorem evictDisk_remove_failure_never_exits (n : nat) :
  evictDisk_go n w_undeletable = None.
Proof.
  induction n as [|n IH]; [reflexivity|].
  by rewrite evictDisk_undeletable_step.
Qed.

(** C7.  When the memory pass exits, [usedMemoryBytes] is at most
    [(RAMBytesMax * 90) / 100] (in [int64]) or the recency list is empty;
    when the disk pass exits (after any number [n] of iterations),
    [usedDiskBytes] is at most [(DiskBytesMax * 90) / 100] or the recency
    list is empty. *)
Theorem eviction_pass_stops_at_threshold (fc : FileCache) (w : World) (n : nat) :
  (usedMemoryBytes (evictMemory fc) <= threshold (RAMBytesMax (config fc)) \/
   mruList (evictMemory fc) = []) /\
  match evictDisk_go n w with
  | Some w' => usedDiskBytes (cache w') <= threshold (DiskBytesMax (config (cache w))) \/
               mruList (cache w') = []
  | None => True
  end.
Proof.
  split.
  - unfold evictMemory.
    destruct (evictMemory_go_facts (length (mruList fc)) fc) as (Hc & _).
    pose proof (evictMemory_go_exit (length (mruList fc)) fc (le_n _)) as H.
    unfold mem_threshold in H. by rewrite Hc in H.
  - pose proof (evictDisk_go_exit n w) as H.
    destruct (evictDisk_go n w) as [w'|]; [|done].
    destruct H as [Hc H]. unfold disk_threshold in H. by rewrite Hc in H.
Qed.

(** C8.  After a successful [Write k v], [Read k] returns exactly [v], and
    the entry of [k] is in memory with data [v]. *)
Theorem Write_then_Read (w w' : World) (k : string) (v : bytes) :
  Write w k (Some v) = (w', Ok tt) ->
  snd (Read w' k) = Ok v /\
  exists e, index (cache w') !! k = Some e /\ InMemory e = true /\ Data e = v.
Proof.
  intros H. unfold Write in H.
  destruct (index (cache w) !! k) as [e0|];
    destruct (WriteFile (disk w) k v) as [d'|err]; simpl in H;
    inversion H; subst; clear H;
    unfold Read; simpl; rewrite index_updateMRU; simpl; rewrite lookup_insert_eq;
    simpl; (split; [reflexivity|]); by eexists.
Qed.

Lemma Write_then_Read_witness :
  snd (Read (fst (Write w_fresh "k1" (Some [Byte.x01]))) "k1") = Ok [Byte.x01].
Proof.
  apply (proj1 (Write_then_Read w_fresh (fst (Write w_fresh "k1" (Some [Byte.x01])))
                  "k1" [Byte.x01] ltac:(vm_compute; reflexivity))).
Defined.

(** C10.  [Read] never adds or removes index keys, never writes the
    backing directory and never changes [usedDiskBytes], whether it
    misses, fails, hits in memory or promotes from disk. *)
Theorem Read_frame (w : World) (k : string) :
  dom (index (cache (fst (Read w k)))) = dom (index (cache w)) /\
  disk (fst (Read w k)) = disk w /\
  usedDiskBytes (cache (fst (Read w k))) = usedDiskBytes (cache w).
Proof.
  unfold Read.
  destruct (index (cache w) !! k) as [e|] eqn:E; [|done].
  destruct (negb (InMemory e)); [destruct (ReadFile (disk w) k) as [data|err]|]; simpl;
    rewrite ?index_updateMRU, ?(proj1 (counters_updateMRU _ _)); simpl; try done.
  split; [|done]. rewrite dom_insert_L. apply elem_of_dom_2 in E. set_solver.
Qed.

(** ** Concurrent readers *)

Module ReadLocksFacts.
Import ReadLocks.
Local Open Scope nat_scope.

Lemma count_where_insert {A} (f : A -> bool) (l : list A) (i : nat) (x y : A) :
  l !! i = Some x ->
  count_where f (<[i := y]> l) + (if f x then 1 else 0) =
  count_where f l + (if f y then 1 else 0).
Proof.
  revert i. induction l as [|a l IH]; intros [|i] H; simpl in *; try discriminate.
  - injection H as ->. lia.
  - specialize (IH i H). lia.
Qed.

Lemma count_where_mono {A} (f g : A -> bool) (l : list A) :
  (forall x, f x = true -> g x = true) -> count_where f l <= count_where g l.
Proof.
  intros Hfg. induction l as [|a l IH]; simpl; [lia|].
  destruct (f a) eqn:E; [rewrite (Hfg a E)|destruct (g a)]; lia.
Qed.

Lemma count_where_forallb {A} (f g : A -> bool) (l : list A) :
  (forall x, f x = true -> g x = true) -> forallb f l = true ->
  count_where g l = length l.
Proof.
  intros Hfg. induction l as [|a l IH]; simpl; [done|].
  intros [Ha Hl]%andb_true_iff. rewrite (Hfg a Ha). rewrite IH by done. lia.
Qed.

Lemma count_where_fmap_false {A B} (f : B -> bool) (g : A -> B) (l : list A) :
  (forall x, f (g x) = false) -> count_where f (g <$> l) = 0.
Proof.
  intros Hf. induction l as [|a l IH]; [done|].
  rewrite fmap_cons. cbn [count_where]. by rewrite Hf, IH.
Qed.

Lemma memb_union_self (k : string) (X : gset string) : memb k ({[k]} ∪ X) = 1.
Proof. unfold memb. rewrite bool_decide_eq_true_2; [done|set_solver]. Qed.

Lemma memb_diff_self (k : string) (X : gset string) : memb k (X ∖ {[k]}) = 0.
Proof. unfold memb. rewrite bool_decide_eq_false_2; [done|set_solver]. Qed.

Lemma memb_union_ne (k k' : string) (X : gset string) :
  k ≠ k' -> memb k ({[k']} ∪ X) = memb k X.
Proof.
  intros Hne. unfold memb. do 2 case_bool_decide; try done; set_solver.
Qed.

Lemma memb_diff_ne (k k' : string) (X : gset string) :
  k ≠ k' -> memb k (X ∖ {[k']}) = memb k X.
Proof.
  intros Hne. unfold memb. do 2 case_bool_decide; try done; set_solver.
Qed.

Lemma memb_in (k : string) (X : gset string) : k ∈ X -> memb k X = 1.
Proof. intros H. unfold memb. by rewrite bool_decide_eq_true_2. Qed.

Lemma memb_notin (k : string) (X : gset string) : k ∉ X -> memb k X = 0.
Proof. intros H. unfold memb. by rewrite bool_decide_eq_false_2. Qed.

Lemma memb_le (k : string) (X : gset string) : memb k X <= 1.
Proof. unfold memb. case_bool_decide; lia. Qed.

Lemma memb_empty (k : string) : memb k ∅ = 0.
Proof. done. Qed.

Lemma nreading_le_ncrit (s : State) : nreading s <= ncrit s.
Proof. apply count_where_mono. by intros [? []]. Qed.


Local Ltac counts_at Hl :=
  match goal with
  | |- context [<[?i := ?y]> ?l] =>
      pose proof (count_where_insert (fun t => in_crit (snd t)) l i _ y Hl);
      pose proof (count_where_insert (fun t => is_reading (snd t)) l i _ y Hl);
      pose proof (count_where_insert (fun t => returned (snd t)) l i _ y Hl);
      pose proof (count_where_insert (fun t => past_check (snd t)) l i _ y Hl)
  end; cbn [in_crit is_reading returned past_check snd] in *.

Lemma same_key_inv_step (indexed readable : string -> bool) (k : string) (n : nat)
  (s s' : State) :
  indexed k = true -> readable k = true ->
  step indexed readable s s' -> same_key_inv k n s -> same_key_inv k n s'.
Proof.
  intros Hidx Hrd Hstep (Hk & Hlen & Hlock & Hmem & Hret).
  pose proof (nreading_le_ncrit s) as Hrc.
  pose proof (memb_le k (locked s)) as Hl1.
  pose proof (memb_le k (inMem s)) as Hm1.
  unfold ncrit, nreading, nreturned in *.
  destruct Hstep as [s i k0 Hl Hc|s i k0 Hl Hc|s i k0 Hl Hc|s i k0 Hl Hc
                    |s i k0 Hl Hc|s i k0 Hl Hc|s i k0 Hl Hc|s i k0 Hl];
    assert (k0 = k) as -> by apply (Forall_lookup_1 _ _ _ _ Hk Hl);
    [congruence| | | | | |congruence| ];
    unfold same_key_inv, ncrit, nreading, nreturned; cbn [threads inMem locked diskReads mk];
    (split; [by apply Forall_insert|]);
    (split; [by rewrite length_insert|]);
    counts_at Hl;
    repeat match goal with
      | H : _ ∈ _ |- _ => apply memb_in in H
      | H : _ ∉ _ |- _ => apply memb_notin in H
      end;
    rewrite ?memb_union_self, ?memb_diff_self; lia.
Qed.

Lemma same_key_inv_init (k : string) (n : nat) :
  same_key_inv k n (init (repeat k n) ∅).
Proof.
  unfold same_key_inv, init, ncrit, nreading, nreturned; cbn [threads inMem locked diskReads mk].
  rewrite !count_where_fmap_false by done.
  split; [|split; [by rewrite length_fmap, repeat_length|]].
  - clear. induction n as [|n IH]; simpl; by constructor.
  - rewrite !memb_empty. lia.
Qed.

Lemma same_key_reads (indexed readable : string -> bool) (k : string) (n : nat) (s : State) :
  indexed k = true -> readable k = true ->
  rtc (step indexed readable) (init (repeat k n) ∅) s ->
  diskReads s <= 1 /\ (all_done s = true -> 0 < n -> diskReads s = 1).
Proof.
  intros Hidx Hrd Hrtc.
  assert (same_key_inv k n s) as (Hk & Hlen & Hlock & Hmem & Hret).
  { assert (forall x y, rtc (step indexed readable) x y ->
              same_key_inv k n x -> same_key_inv k n y) as Hpres.
    { intros x y H. induction H as [|x y z Hxy _ IH]; [done|].
      intros Hx. apply IH. exact (same_key_inv_step indexed readable k n x y Hidx Hrd Hxy Hx). }
    apply (Hpres _ _ Hrtc), same_key_inv_init. }
  pose proof (nreading_le_ncrit s) as Hrc.
  pose proof (memb_le k (locked s)) as Hl1.
  unfold ncrit, nreading, nreturned in *.
  split; [lia|].
  intros Hdone Hn.
  pose proof (count_where_forallb
                (fun t => match snd t with PDone => true | _ => false end)
                (fun t => returned (snd t)) (threads s)
                ltac:(intros [? []] Hx; simpl in *; congruence) Hdone) as Hc.
  lia.
Qed.


Lemma distinct_inv_step (indexed readable : string -> bool) (ks : list string)
  (s s' : State) :
  NoDup ks -> Forall (fun k => indexed k = true) ks ->
  step indexed readable s s' -> distinct_inv ks s -> distinct_inv ks s'.
Proof.
  intros Hnd Hall Hstep (Hlen & Hth & Hd).
  destruct Hstep as [s i k0 Hl Hc|s i k0 Hl Hc|s i k0 Hl Hc|s i k0 Hl Hc
                    |s i k0 Hl Hc|s i k0 Hl Hc|s i k0 Hl Hc|s i k0 Hl];
    destruct (Hth _ _ _ Hl) as (Hki & Hm & Hlk);
    pose proof (Forall_lookup_1 _ _ _ _ Hall Hki) as Hidx;
    [congruence| | |apply memb_in in Hc; cbn [returned] in Hm; lia| | | | ];
    unfold distinct_inv, npast in *; cbn [threads inMem locked diskReads mk] in *;
    (split; [by rewrite length_insert|]);
    counts_at Hl;
    (split; [|lia]);
    intros j k p Hj;
    (destruct (decide (j = i)) as [->|Hne];
     [ rewrite list_lookup_insert_eq in Hj by (eapply lookup_lt_Some; eauto);
       injection Hj as <- <-; split; [done|];
       repeat match goal with
         | H : _ ∈ _ |- _ => apply memb_in in H
         | H : _ ∉ _ |- _ => apply memb_notin in H
         end;
       cbn [returned in_crit] in *;
       rewrite ?memb_union_self, ?memb_diff_self; lia
     | rewrite list_lookup_insert_ne in Hj by done;
       destruct (Hth _ _ _ Hj) as (Hkj & Hmj & Hlj);
       assert (k ≠ k0) by (intros ->; apply Hne; eapply NoDup_lookup; eauto);
       split; [done|];
       rewrite ?memb_union_ne, ?memb_diff_ne by done; done ]).
Qed.

Lemma distinct_inv_init (ks : list string) : distinct_inv ks (init ks ∅).
Proof.
  unfold distinct_inv, init, npast; cbn [threads inMem locked diskReads mk].
  split; [by rewrite length_fmap|]. split.
  - intros i k p Hi. rewrite list_lookup_fmap in Hi.
    destruct (ks !! i) as [k'|] eqn:E; [|discriminate].
    injection Hi as <- <-. by split.
  - by rewrite count_where_fmap_false.
Qed.

Lemma distinct_reads (indexed readable : string -> bool) (ks : list string) (s : State) :
  NoDup ks -> Forall (fun k => indexed k = true) ks ->
  rtc (step indexed readable) (init ks ∅) s ->
  diskReads s = npast s /\ (all_done s = true -> diskReads s = length ks).
Proof.
  intros Hnd Hall Hrtc.
  assert (distinct_inv ks s) as (Hlen & _ & Hd).
  { assert (forall x y, rtc (step indexed readable) x y ->
              distinct_inv ks x -> distinct_inv ks y) as Hpres.
    { intros x y H. induction H as [|x y z Hxy _ IH]; [done|].
      intros Hx. apply IH. exact (distinct_inv_step indexed readable ks x y Hnd Hall Hxy Hx). }
    apply (Hpres _ _ Hrtc), distinct_inv_init. }
  split; [done|]. intros Hdone.
  pose proof (count_where_forallb
                (fun t => match snd t with PDone => true | _ => false end)
                (fun t => past_check (snd t)) (threads s)
                ltac:(intros [? []] Hx; simpl in *; congruence) Hdone) as Hc.
  unfold npast in Hd. lia.
Qed.

Lemma reading_prefix_step (indexed readable : string -> bool) (ks : list string)
  (j : nat) (kj : string) :
  NoDup ks -> indexed kj = true -> ks !! j = Some kj ->
  rtc (step indexed readable) (reading_prefix ks j) (reading_prefix ks (S j)).
Proof.
  intros Hnd Hidx Hj.
  set (A := (fun k => (k, PDiskRead)) <$> take j ks).
  set (B := (fun k => (k, PLoad)) <$> drop (S j) ks).
  assert (HA : length A = j).
  { unfold A. rewrite length_fmap, length_take. apply lookup_lt_Some in Hj. lia. }
  assert (Hts : threads (reading_prefix ks j) = A ++ (kj, PLoad) :: B).
  { unfold reading_prefix; simpl. by rewrite (drop_S _ _ _ Hj), fmap_cons. }
  assert (Hnot : kj ∉ (list_to_set (take j ks) : gset string)).
  { rewrite elem_of_list_to_set, elem_of_take. intros (i & Hi & Hlt).
    pose proof (NoDup_lookup _ _ _ _ Hnd Hi Hj). lia. }
  assert (Hins : forall p q, <[j := (kj, p)]> (A ++ (kj, q) :: B) = A ++ (kj, p) :: B).
  { intros p q. rewrite insert_app_r_alt by lia. by rewrite HA, Nat.sub_diag. }
  assert (Hlk : forall p, (A ++ (kj, p) :: B) !! j = Some (kj, p)).
  { intros p. rewrite lookup_app_r by lia. by rewrite HA, Nat.sub_diag. }
  eapply rtc_l.
  { apply (step_load_hit _ _ _ j kj); [rewrite Hts; apply Hlk|done]. }
  eapply rtc_l.
  { apply (step_lock _ _ _ j kj); cbn [threads locked mk];
      [rewrite Hts, Hins; apply Hlk|exact Hnot]. }
  eapply rtc_l.
  { apply (step_check_disk _ _ _ j kj); cbn [threads inMem mk];
      [rewrite Hts, !Hins; apply Hlk|set_solver]. }
  match goal with |- rtc _ ?x ?y => replace y with x; [apply rtc_refl|] end.
  cbn [threads inMem locked diskReads mk].
  rewrite Hts, !Hins. unfold reading_prefix, A, B. cbn [threads inMem locked diskReads].
  rewrite (take_S_r _ _ _ Hj), fmap_app, <- app_assoc, list_to_set_app_L. simpl.
  f_equal. set_solver.
Qed.

Lemma all_reading_reachable (indexed readable : string -> bool) (ks : list string) :
  NoDup ks -> Forall (fun k => indexed k = true) ks ->
  rtc (step indexed readable) (init ks ∅) (reading_prefix ks (length ks)).
Proof.
  intros Hnd Hall.
  assert (forall j, j <= length ks ->
            rtc (step indexed readable) (init ks ∅) (reading_prefix ks j)) as H.
  { induction j as [|j IH]; intros Hj; [apply rtc_refl|].
    destruct (lookup_lt_is_Some_2 ks j) as [kj Hkj]; [lia|].
    eapply rtc_trans; [apply IH; lia|].
    apply (reading_prefix_step _ _ _ _ kj); [done| |done].
    exact (Forall_lookup_1 _ _ _ _ Hall Hkj). }
  by apply H.
Qed.

Lemma reading_prefix_all (ks : list string) :
  length (threads (reading_prefix ks (length ks))) = length ks /\
  Forall (fun t => snd t = PDiskRead) (threads (reading_prefix ks (length ks))) /\
  diskReads (reading_prefix ks (length ks)) = length ks.
Proof.
  unfold reading_prefix; cbn [threads diskReads mk].
  rewrite take_ge, drop_ge by lia. rewrite fmap_nil, app_nil_r.
  split; [by rewrite length_fmap|]. split; [|done].
  apply Forall_fmap, Forall_forall. done.
Qed.

End ReadLocksFacts.

Import ReadLocks ReadLocksFacts.

Local Ltac read_step c i k :=
  eapply rtc_l;
  [ apply (c _ _ _ i k); cbn [threads inMem locked diskReads mk];
    try reflexivity; try set_solver
  | cbn [threads inMem locked diskReads mk init repeat fmap list_fmap] ].

(** C9 (counterexample).  Two readers of the indexed key [a] whose
    [os.ReadFile] fails: the first reader leaves the entry NotLoaded, so the
    second one, once it gets the entry lock, reads the disk again; both
    return and two disk reads were made. *)
Lemma same_key_failed_read_rereads :
  exists s, rtc (step (fun _ => true) (fun _ => false)) (init (repeat "a" 2) ∅) s /\
            all_done s = true /\ diskReads s = 2%nat.
Proof.
  eexists. split.
  - read_step step_load_hit 0%nat "a".
    read_step step_lock 0%nat "a".
    read_step step_check_disk 0%nat "a".
    read_step step_read_err 0%nat "a".
    read_step step_unlock 0%nat "a".
    read_step step_load_hit 1%nat "a".
    read_step step_lock 1%nat "a".
    read_step step_check_disk 1%nat "a".
    read_step step_read_err 1%nat "a".
    read_step step_unlock 1%nat "a".
    apply rtc_refl.
  - split; vm_compute; reflexivity.
Qed.

(** C9 (amended).  For an indexed key whose disk read succeeds, concurrent
    [Read]s of that key make at most one disk read, and exactly one once
    they have all returned (at least one reader).  Concurrent [Read]s of
    distinct indexed cold keys make one disk read each once they have all
    returned, and the entry locks never keep them apart: all the readers
    can be inside [os.ReadFile] at the same time. *)
Theorem concurrent_reads_disk_count (indexed readable : string -> bool) :
  (forall (k : string) (n : nat) (s : State),
     indexed k = true -> readable k = true ->
     rtc (step indexed readable) (init (repeat k n) ∅) s ->
     (diskReads s <= 1)%nat /\ (all_done s = true -> (0 < n)%nat -> diskReads s = 1%nat)) /\
  (forall (ks : list string) (s : State),
     NoDup ks -> Forall (fun k => indexed k = true) ks ->
     rtc (step indexed readable) (init ks ∅) s ->
     all_done s = true -> diskReads s = length ks) /\
  (forall ks : list string,
     NoDup ks -> Forall (fun k => indexed k = true) ks ->
     exists s, rtc (step indexed readable) (init ks ∅) s /\
       length (threads s) = length ks /\
       Forall (fun t => snd t = PDiskRead) (threads s) /\
       diskReads s = length ks).
Proof.
  split; [|split].
  - intros k n s Hidx Hrd Hrtc. exact (same_key_reads indexed readable k n s Hidx Hrd Hrtc).
  - intros ks s Hnd Hall Hrtc Hdone.
    exact (proj2 (distinct_reads indexed readable ks s Hnd Hall Hrtc) Hdone).
  - intros ks Hnd Hall. exists (reading_prefix ks (length ks)).
    split; [exact (all_reading_reachable indexed readable ks Hnd Hall)|].
    exact (reading_prefix_all ks).
Qed.

Lemma same_key_two_readers_done :
  exists s, rtc (step (fun _ => true) (fun _ => true)) (init (repeat "a" 2) ∅) s /\
            all_done s = true.
Proof.
  eexists. split.
  - read_step step_load_hit 0%nat "a".
    read_step step_lock 0%nat "a".
    read_step step_check_disk 0%nat "a".
    read_step step_read_ok 0%nat "a".
    read_step step_unlock 0%nat "a".
    read_step step_load_hit 1%nat "a".
    read_step step_lock 1%nat "a".
    read_step step_check_ram 1%nat "a".
    read_step step_unlock 1%nat "a".
    apply rtc_refl.
  - vm_compute. reflexivity.
Qed.

Lemma distinct_two_readers_done :
  exists s, rtc (step (fun _ => true) (fun _ => true)) (init ["a"; "b"] ∅) s /\
            all_done s = true.
Proof.
  eexists. split.
  - read_step step_load_hit 0%nat "a".
    read_step step_load_hit 1%nat "b".
    read_step step_lock 0%nat "a".
    read_step step_lock 1%nat "b".
    read_step step_check_disk 0%nat "a".
    read_step step_check_disk 1%nat "b".
    read_step step_read_ok 0%nat "a".
    read_step step_read_ok 1%nat "b".
    read_step step_unlock 0%nat "a".
    read_step step_unlock 1%nat "b".
    apply rtc_refl.
  - vm_compute. reflexivity.
Qed.

Lemma concurrent_reads_disk_count_witness :
  (exists s, rtc (step (fun _ => true) (fun _ => true)) (init (repeat "a" 2) ∅) s /\
     all_done s = true /\ diskReads s = 1%nat) /\
  (exists s, rtc (step (fun _ => true) (fun _ => true)) (init ["a"; "b"] ∅) s /\
     all_done s = true /\ diskReads s = 2%nat) /\
  (exists s, rtc (step (fun _ => true) (fun _ => true)) (init ["a"; "b"; "c"] ∅) s /\
     length (threads s) = 3%nat /\ Forall (fun t => snd t = PDiskRead) (threads s) /\
     diskReads s = 3%nat).
Proof.
  destruct (concurrent_reads_disk_count (fun _ => true) (fun _ => true)) as (H1 & H2 & H3).
  split; [|split].
  - destruct same_key_two_readers_done as (s & Hr & Hd).
    exists s. split; [exact Hr|]. split; [exact Hd|].
    exact (proj2 (H1 "a" 2%nat s eq_refl eq_refl Hr) Hd ltac:(lia)).
  - destruct distinct_two_readers_done as (s & Hr & Hd).
    exists s. split; [exact Hr|]. split; [exact Hd|].
    apply (H2 ["a"; "b"] s); [|repeat constructor|exact Hr|exact Hd].
    apply (bool_decide_unpack (NoDup ["a"; "b"])). vm_compute. reflexivity.
  - apply (H3 ["a"; "b"; "c"]).
    + apply (bool_decide_unpack (NoDup ["a"; "b"; "c"])). vm_compute. reflexivity.
    + repeat constructor.
Defined.

(** ** Further properties of the cache *)

Lemma cache_wf_set_index (fc : FileCache) (i : gmap string fileCacheEntry) :
  cache_wf fc -> dom (index fc) ⊆ dom i -> cache_wf (set_index i fc).
Proof.
  intros (Hnd & Hm & Hall) Hsub. unfold cache_wf; cbn.
  split; [done|]. split; [done|].
  eapply Forall_impl; [exact Hall|]. set_solver.
Qed.

Lemma cache_wf_set_counters (fc : FileCache) (dsk mem : Z) :
  cache_wf fc -> cache_wf (set_counters dsk mem fc).
Proof. done. Qed.

Lemma cache_wf_updateMRU (fc : FileCache) (k : string) :
  cache_wf fc -> k ∈ dom (index fc) -> cache_wf (updateMRU fc k).
Proof.
  intros (Hnd & Hm & Hall) Hk. unfold updateMRU, cache_wf.
  case_decide as Hin; cbn [mruList mruMap index set_mru].
  - rewrite Hm, elem_of_list_to_set in Hin. unfold move_to_front.
    split; [|split].
    + apply NoDup_cons. split.
      * rewrite list_elem_of_filter. intuition.
      * by apply NoDup_filter.
    + rewrite Hm. apply set_eq. intros x.
      rewrite !elem_of_list_to_set, elem_of_cons, list_elem_of_filter.
      destruct (decide (x = k)); naive_solver.
    + constructor; [done|]. apply Forall_forall. intros x Hx.
      apply list_elem_of_filter in Hx as [_ Hx].
      exact (proj1 (Forall_forall _ _) Hall x Hx).
  - rewrite Hm, elem_of_list_to_set in Hin.
    split; [|split].
    + by apply NoDup_cons.
    + by rewrite Hm.
    + by constructor.
Qed.

Lemma mru_head_updateMRU (fc : FileCache) (k : string) :
  head (mruList (updateMRU fc k)) = Some k.
Proof. unfold updateMRU. by case_decide. Qed.

Lemma cache_wf_drop_back (fc : FileCache) (k : string) :
  cache_wf fc -> Back (mruList fc) = Some k ->
  NoDup (removelast (mruList fc)) /\
  mruMap fc ∖ {[k]} = list_to_set (removelast (mruList fc)) /\
  Forall (fun x => x ∈ dom (index fc) /\ x ≠ k) (removelast (mruList fc)).
Proof.
  intros (Hnd & Hm & Hall) Hb.
  pose proof (Back_Some _ _ Hb) as Hl.
  remember (removelast (mruList fc)) as r eqn:Er. clear Er.
  rewrite Hl in Hnd, Hm, Hall.
  apply NoDup_app in Hnd as (Hr & Hdisj & _).
  assert (k ∉ r) as Hkr.
  { intros Hk. apply (Hdisj k Hk). by constructor. }
  apply Forall_app in Hall as [Hall _].
  split; [done|]. split.
  - rewrite Hm, list_to_set_app_L. set_solver.
  - apply Forall_forall. intros x Hx. split.
    + by apply (proj1 (Forall_forall _ _) Hall).
    + by intros ->.
Qed.

Lemma cache_wf_evictMemory_body (fc : FileCache) (k : string) :
  cache_wf fc -> Back (mruList fc) = Some k -> cache_wf (evictMemory_body fc k).
Proof.
  intros Hwf Hb. destruct (cache_wf_drop_back fc k Hwf Hb) as (Hnd & Hm & Hall).
  destruct (evictMemory_body_facts fc k) as (_ & Hl & Hm' & _ & Hd & _).
  unfold cache_wf. rewrite Hl, Hm', Hd. split; [done|]. split; [done|].
  eapply Forall_impl; [exact Hall|]. naive_solver.
Qed.

Lemma cache_wf_evictMemory_go (n : nat) (fc : FileCache) :
  cache_wf fc -> cache_wf (evictMemory_go n fc).
Proof.
  revert fc. induction n as [|n IH]; intros fc Hwf; simpl; [done|].
  destruct (_ && _); [|done].
  destruct (Back (mruList fc)) as [k|] eqn:Hb; [|done].
  apply IH. by apply cache_wf_evictMemory_body.
Qed.

Lemma evictDisk_drop_facts (fc : FileCache) (k : string) :
  mruList (evictDisk_drop fc k) = removelast (mruList fc) /\
  mruMap (evictDisk_drop fc k) = mruMap fc ∖ {[k]} /\
  dom (index (evictDisk_drop fc k)) = dom (index fc) ∖ {[k]} /\
  (forall k', k' ≠ k -> index (evictDisk_drop fc k) !! k' = index fc !! k').
Proof.
  unfold evictDisk_drop, drop_oldest.
  destruct (index fc !! k) as [e|] eqn:E; cbn.
  - rewrite dom_delete_L. split; [done|]. split; [done|]. split; [done|].
    intros k' Hne. by rewrite lookup_delete_ne by congruence.
  - split; [done|]. split; [done|]. split; [|done].
    apply not_elem_of_dom in E. set_solver.
Qed.

Lemma cache_wf_evictDisk_drop (fc : FileCache) (k : string) :
  cache_wf fc -> Back (mruList fc) = Some k -> cache_wf (evictDisk_drop fc k).
Proof.
  intros Hwf Hb. destruct (cache_wf_drop_back fc k Hwf Hb) as (Hnd & Hm & Hall).
  destruct (evictDisk_drop_facts fc k) as (Hl & Hm' & Hd & _).
  unfold cache_wf. rewrite Hl, Hm', Hd. split; [done|]. split; [done|].
  eapply Forall_impl; [exact Hall|]. set_solver.
Qed.

Lemma cache_wf_evictDisk_go (n : nat) (w w' : World) :
  cache_wf (cache w) -> evictDisk_go n w = Some w' -> cache_wf (cache w').
Proof.
  revert w. induction n as [|n IH]; intros w Hwf Hgo; simpl in Hgo; [done|].
  destruct (_ && _); [|by injection Hgo as <-].
  destruct (Back (mruList (cache w))) as [k|] eqn:Hb; [|by injection Hgo as <-].
  destruct (Stat (disk w) k); [destruct (Remove (disk w) k) as [d'|e]|].
  - refine (IH _ _ Hgo). exact (cache_wf_evictDisk_drop (cache w) k Hwf Hb).
  - by apply (IH w).
  - refine (IH _ _ Hgo). exact (cache_wf_evictDisk_drop (cache w) k Hwf Hb).
Qed.

Lemma init_index_fields (fc : FileCache) (scanned : list (string * Z)) :
  mruList (init_index fc scanned) = mruList fc /\
  mruMap (init_index fc scanned) = mruMap fc /\
  usedMemoryBytes (init_index fc scanned) = usedMemoryBytes fc /\
  config (init_index fc scanned) = config fc.
Proof.
  unfold init_index. revert fc.
  induction scanned as [|[n sz] l IH]; intros fc; simpl; [done|].
  match goal with |- mruList (fold_left _ _ ?x) = _ /\ _ =>
    destruct (IH x) as (H1 & H2 & H3 & H4) end.
  rewrite H1, H2, H3, H4. done.
Qed.

Lemma wrap64_mod (a : Z) : wrap64 a mod 2 ^ 64 = a mod 2 ^ 64.
Proof.
  unfold wrap64. destruct (_ >=? _).
  - rewrite Zminus_mod, Z_mod_same_full, Z.sub_0_r, !Zmod_mod. done.
  - apply Zmod_mod.
Qed.

Lemma wrap64_ext (a b : Z) : a mod 2 ^ 64 = b mod 2 ^ 64 -> wrap64 a = wrap64 b.
Proof. unfold wrap64. by intros ->. Qed.

Lemma wrap64_add_l (a b : Z) : wrap64 (wrap64 a + b) = wrap64 (a + b).
Proof.
  apply wrap64_ext. rewrite Zplus_mod, wrap64_mod, <- Zplus_mod. done.
Qed.

Lemma wrap64_small (a : Z) : 0 <= a < 2 ^ 63 -> wrap64 a = a.
Proof.
  intros Ha. unfold wrap64. rewrite Z.mod_small by lia.
  destruct (a >=? 2 ^ 63) eqn:E; [apply Z.geb_le in E; lia|done].
Qed.

Lemma cache_wf_Read (w : World) (k : string) :
  cache_wf (cache w) -> cache_wf (cache (fst (Read w k))).
Proof.
  intros Hwf. unfold Read.
  destruct (index (cache w) !! k) as [e|] eqn:E; [|done].
  destruct (InMemory e); simpl.
  - apply cache_wf_updateMRU; [done|]. by eapply elem_of_dom_2.
  - destruct (ReadFile (disk w) k); simpl; [|done].
    apply cache_wf_updateMRU.
    + apply cache_wf_set_counters, cache_wf_set_index; [done|].
      rewrite dom_insert_L. set_solver.
    + cbn. rewrite dom_insert_L. set_solver.
Qed.

Lemma cache_wf_Write (w : World) (k : string) (inp : option bytes) :
  cache_wf (cache w) -> cache_wf (cache (fst (Write w k inp))).
Proof.
  intros Hwf. unfold Write.
  destruct (index (cache w) !! k) as [e|] eqn:E; simpl;
    (destruct inp as [v|]; [destruct (WriteFile (disk w) k v) as [d'|err]|]); simpl.
  all: try (apply cache_wf_set_index; [done|]; rewrite ?dom_insert_L; set_solver).
  all: apply cache_wf_updateMRU; [apply cache_wf_set_counters; apply cache_wf_set_index;
         [apply cache_wf_set_index; [done|]|]|]; cbn; rewrite ?dom_insert_L; set_solver.
Qed.

Lemma scanned_total_app (l : list (string * Z)) (n : string) (sz : Z) :
  scanned_total (l ++ [(n, sz)]) = scanned_total l + sz.
Proof.
  unfold scanned_total. rewrite fold_right_app. simpl.
  induction l as [|[a b] l IH]; simpl; lia.
Qed.

Lemma init_index_scan_aux (cfg : FileCacheConfig) (scanned : list (string * Z)) :
  index (init_index (NewFileCache cfg) scanned) =
    list_to_map (rev (map (fun p => (fst p, scanned_entry (snd p))) scanned)) /\
  usedDiskBytes (init_index (NewFileCache cfg) scanned) = wrap64 (scanned_total scanned).
Proof.
  induction scanned as [|[n sz] l IH] using rev_ind; [done|].
  unfold init_index in *. rewrite fold_left_app. simpl.
  destruct IH as [IHi IHd]. rewrite IHi, IHd, map_app, rev_app_distr. simpl.
  split; [done|].
  by rewrite wrap64_add_l, scanned_total_app.
Qed.

Lemma index_evictMemory_body_shape (fc : FileCache) (k k' : string) (e : fileCacheEntry) :
  index (evictMemory_body fc k) !! k' = Some e ->
  exists e0, index fc !! k' = Some e0 /\ Size e = Size e0 /\
    (e = e0 \/ (InMemory e = false /\ Data e = [])).
Proof.
  destruct (decide (k' = k)) as [->|Hne].
  - unfold evictMemory_body, drop_oldest.
    destruct (index fc !! k) as [e0|] eqn:E; [destruct (InMemory e0)|]; cbn;
      rewrite ?lookup_insert_eq, ?E; [|intros [= <-]; eauto..|done].
    intros [= <-]. exists e0. cbn. eauto.
  - rewrite index_evictMemory_body_ne by done. intros He. exists e. eauto.
Qed.

Lemma evictMemory_go_frame (n : nat) (fc : FileCache) :
  usedDiskBytes (evictMemory_go n fc) = usedDiskBytes fc /\
  (forall k, k ∉ mruList fc -> index (evictMemory_go n fc) !! k = index fc !! k) /\
  (forall k e, index (evictMemory_go n fc) !! k = Some e ->
     exists e0, index fc !! k = Some e0 /\ Size e = Size e0 /\
       (e = e0 \/ (InMemory e = false /\ Data e = []))).
Proof.
  revert fc. induction n as [|n IH]; intros fc; simpl.
  { split; [done|]. split; [done|]. intros k e He. exists e. eauto. }
  destruct (_ && _); [|split; [done|]; split; [done|]; intros k e He; exists e; eauto].
  destruct (Back (mruList fc)) as [k0|] eqn:Hb;
    [|split; [done|]; split; [done|]; intros k e He; exists e; eauto].
  destruct (evictMemory_body_facts fc k0) as (_ & Hl & _ & Hd & _).
  destruct (IH (evictMemory_body fc k0)) as (IHd & IHk & IHs).
  split; [congruence|]. split.
  - intros k Hk. rewrite IHk.
    + apply index_evictMemory_body_ne. intros ->. apply Hk.
      rewrite (Back_Some _ _ Hb). apply elem_of_app. right. by constructor.
    + rewrite Hl. intros Hin. apply Hk. rewrite (Back_Some _ _ Hb).
      apply elem_of_app. by left.
  - intros k e He. destruct (IHs k e He) as (e1 & He1 & Hs1 & H1).
    destruct (index_evictMemory_body_shape fc k0 k e1 He1) as (e0 & He0 & Hs0 & H0).
    exists e0. split; [done|]. split; [congruence|].
    destruct H1 as [->|H1]; [done|]. by right.
Qed.

(** ** Further properties of the code *)

(** X1.  The recency structures stay consistent: if [mruList] has no
    duplicate, [mruMap] is the set of its keys and every key in it is
    indexed, this still holds after [Read], [Write], an [evictMemory]
    pass and an [evictDisk] pass. *)
Theorem cache_wf_preserved (w : World) (k : string) (inp : option bytes) (n : nat)
  (w' : World) :
  cache_wf (cache w) ->
  cache_wf (cache (fst (Read w k))) /\ cache_wf (cache (fst (Write w k inp))) /\
  cache_wf (evictMemory (cache w)) /\
  (evictDisk_go n w = Some w' -> cache_wf (cache w')).
Proof.
  intros Hwf. split; [by apply cache_wf_Read|]. split; [by apply cache_wf_Write|].
  split; [by apply cache_wf_evictMemory_go|]. intros Hgo. by eapply cache_wf_evictDisk_go.
Qed.

Lemma cache_wf_preserved_witness :
  cache_wf (cache (fst (Write (fst (Read w_one_file "k1")) "k2" (Some [Byte.x01])))).
Proof.
  assert (Hwf : cache_wf (cache w_one_file)).
  { split; [constructor|]. split; [reflexivity|constructor]. }
  pose proof (proj1 (cache_wf_preserved w_one_file "k1" None 1 w_one_file Hwf)) as H1.
  exact (proj1 (proj2 (cache_wf_preserved (fst (Read w_one_file "k1")) "k2"
                         (Some [Byte.x01]) 1 w_one_file H1))).
Defined.

(** X2.  [init] over the scanned files, from [NewFileCache]: the index
    maps each base name to a not-in-memory entry with the scanned size, a
    later file of the same base name replacing an earlier one;
    [usedDiskBytes] is the [int64] sum of all scanned sizes, duplicates
    included; [usedMemoryBytes] is 0, the recency list is empty and the
    cache is consistent. *)
Theorem init_index_scan (cfg : FileCacheConfig) (scanned : list (string * Z)) :
  index (init_index (NewFileCache cfg) scanned) =
    list_to_map (rev (map (fun p => (fst p, scanned_entry (snd p))) scanned)) /\
  usedDiskBytes (init_index (NewFileCache cfg) scanned) = wrap64 (scanned_total scanned) /\
  usedMemoryBytes (init_index (NewFileCache cfg) scanned) = 0 /\
  mruList (init_index (NewFileCache cfg) scanned) = [] /\
  cache_wf (init_index (NewFileCache cfg) scanned).
Proof.
  destruct (init_index_scan_aux cfg scanned) as [Hi Hd].
  destruct (init_index_fields (NewFileCache cfg) scanned) as (Hl & Hm & Hu & _).
  split; [done|]. split; [done|]. split; [done|]. split; [done|].
  unfold cache_wf. rewrite Hl, Hm. split; [constructor|]. split; [done|constructor].
Qed.

(** X3.  A successful [Read k] returning [d]: the backing directory is
    unchanged, [k] is at the front of the recency list, and [k] was
    indexed with an entry [e] that is now in memory holding [d] with the
    same size, no other entry changed; [d] is [e]'s data when [e] was in
    memory, and otherwise the file's content, [usedMemoryBytes] then
    growing by [len(d)]. *)
Theorem Read_ok (w w' : World) (k : string) (d : bytes) :
  Read w k = (w', Ok d) ->
  disk w' = disk w /\ head (mruList (cache w')) = Some k /\
  exists e, index (cache w) !! k = Some e /\
    index (cache w') = <[k := {| Data := d; InMemory := true; Size := Size e |}]> (index (cache w)) /\
    (if InMemory e then d = Data e else files (disk w) !! k = Some d) /\
    usedMemoryBytes (cache w') =
      (if InMemory e then usedMemoryBytes (cache w)
       else wrap64 (usedMemoryBytes (cache w) + blen d)).
Proof.
  unfold Read. destruct (index (cache w) !! k) as [e|] eqn:E; [|by intros [=]].
  destruct e as [ed ei es]. destruct ei; simpl.
  - intros [= <- <-]. simpl. rewrite index_updateMRU, (proj2 (counters_updateMRU _ _)).
    split; [done|]. split; [apply mru_head_updateMRU|].
    eexists. split; [done|]. split; [|done]. by rewrite insert_id.
  - destruct (ReadFile (disk w) k) as [data|err] eqn:Hr; simpl; [|by intros [=]].
    intros [= <- <-]. simpl. rewrite index_updateMRU, (proj2 (counters_updateMRU _ _)).
    split; [done|]. split; [apply mru_head_updateMRU|].
    eexists. split; [done|]. split; [done|]. split; [|done].
    unfold ReadFile in Hr. destruct (files (disk w) !! k); congruence.
Qed.

Lemma Read_ok_witness :
  head (mruList (cache (fst (Read w_one_file "k1")))) = Some "k1".
Proof.
  exact (proj1 (proj2 (Read_ok w_one_file (fst (Read w_one_file "k1")) "k1"
                         (repeat Byte.x00 5) ltac:(vm_compute; reflexivity)))).
Defined.

(** X4.  A failed [Read k] changes nothing, and its error is
    [os.ErrNotExist] exactly when [k] is not indexed; otherwise [k] was
    indexed but not in memory, and the error is the one [os.ReadFile]
    returned for [k]'s file. *)
Theorem Read_err (w w' : World) (k : string) (err : error) :
  Read w k = (w', Err err) ->
  w' = w /\
  ((index (cache w) !! k = None /\ err = ErrNotExist) \/
   (exists e, index (cache w) !! k = Some e /\ InMemory e = false /\
      ReadFile (disk w) k = Err err)).
Proof.
  unfold Read. destruct (index (cache w) !! k) as [e|] eqn:E.
  - destruct (InMemory e) eqn:Ei; simpl; [by intros [=]|].
    destruct (ReadFile (disk w) k) as [data|er] eqn:Hr; [by intros [=]|].
    intros [= <- <-]. split; [done|]. right. by exists e.
  - intros [= <- <-]. split; [done|]. by left.
Qed.

Lemma Read_err_witness :
  fst (Read w_fresh "a") = w_fresh.
Proof.
  exact (proj1 (Read_err w_fresh (fst (Read w_fresh "a")) "a" ErrNotExist
                 ltac:(vm_compute; reflexivity))).
Defined.

(** X5.  A failed [Write k] leaves the recency list and both counters
    unchanged; it failed either in reading the input or in
    [os.WriteFile], whose error it returns.  The index is unchanged when
    [k] was indexed; otherwise it now holds an empty, not-in-memory entry
    for [k], so that a later [Read k] no longer reports [os.ErrNotExist]
    but returns what reading [k]'s file gives. *)
Theorem Write_err (w w' : World) (k : string) (inp : option bytes) (err : error) :
  Write w k inp = (w', Err err) ->
  mruList (cache w') = mruList (cache w) /\
  mruMap (cache w') = mruMap (cache w) /\
  usedDiskBytes (cache w') = usedDiskBytes (cache w) /\
  usedMemoryBytes (cache w') = usedMemoryBytes (cache w) /\
  index (cache w') =
    match index (cache w) !! k with
    | Some _ => index (cache w)
    | None => <[k := {| Data := []; InMemory := false; Size := 0 |}]> (index (cache w))
    end /\
  (inp = None \/ exists v, inp = Some v /\ WriteFile (disk w) k v = Err err) /\
  (index (cache w) !! k = None -> snd (Read w' k) = ReadFile (disk w') k).
Proof.
  unfold Write. destruct (index (cache w) !! k) as [e|] eqn:E; simpl;
    (destruct inp as [v|]; [destruct (WriteFile (disk w) k v) as [d'|er] eqn:Hw|]);
    simpl; try by intros [=].
  all: intros [= <- <-]; cbn [cache disk set_index index mruList mruMap usedDiskBytes
                                usedMemoryBytes].
  all: do 5 (split; [done|]).
  all: split; [first [by left | right; by exists v]|].
  all: intros Hn; try discriminate Hn.
  all: unfold Read; cbn [cache disk index set_index]; rewrite lookup_insert_eq; simpl;
    by destruct (ReadFile _ k).
Qed.

Lemma Write_err_witness :
  snd (Read (fst (Write w_fresh "a" None)) "a") = ReadFile (disk (fst (Write w_fresh "a" None))) "a".
Proof.
  exact (proj2 (proj2 (proj2 (proj2 (proj2 (proj2
           (Write_err w_fresh (fst (Write w_fresh "a" None)) "a" None ErrUnexpectedEOF
              ltac:(vm_compute; reflexivity)))))))
           ltac:(vm_compute; reflexivity)).
Defined.



(** X7.  An [evictMemory] pass keeps the configuration, [usedDiskBytes]
    and the set of indexed keys; the entry of a key not in the recency
    list is untouched, and any other entry either is unchanged or has
    been demoted to not-in-memory with no data, its size kept. *)
Theorem evictMemory_frame (fc : FileCache) :
  config (evictMemory fc) = config fc /\
  usedDiskBytes (evictMemory fc) = usedDiskBytes fc /\
  dom (index (evictMemory fc)) = dom (index fc) /\
  (forall k, k ∉ mruList fc -> index (evictMemory fc) !! k = index fc !! k) /\
  (forall k e, index (evictMemory fc) !! k = Some e ->
     exists e0, index fc !! k = Some e0 /\ Size e = Size e0 /\
       (e = e0 \/ (InMemory e = false /\ Data e = []))).
Proof.
  unfold evictMemory.
  destruct (evictMemory_go_facts (length (mruList fc)) fc) as (Hc & Hd & _).
  destruct (evictMemory_go_frame (length (mruList fc)) fc) as (Hu & Hk & Hs).
  done.
Qed.

(** X9.  The eviction threshold [(max * 90) / 100] in [int64]: for a
    budget [max >= 0] whose product [max * 90] does not overflow it is
    the mathematical [90%] (rounded down) and lies in [[0, max]].  When
    the product overflows, the threshold is strictly below that [90%];
    and whenever the product wraps to a negative [int64] the threshold is
    at most 0, so a pass then keeps evicting while the counter is
    positive. *)
Theorem threshold_int64 (max : Z) :
  (0 <= max -> max * 90 < 2 ^ 63 ->
   threshold max = max * 90 / 100 /\ 0 <= threshold max <= max) /\
  (2 ^ 63 <= max * 90 -> threshold max < max * 90 / 100) /\
  (wrap64 (max * 90) < 0 -> threshold max <= 0).
Proof.
  unfold threshold. split; [|split].
  - intros H0 H1. rewrite wrap64_small by lia.
    rewrite Z.quot_div_nonneg by lia. split; [done|]. split.
    + apply Z.div_pos; lia.
    + apply Z.div_le_upper_bound; lia.
  - intros H. set (a := max * 90) in *.
    assert (a - wrap64 a >= 2 ^ 64) as Hw.
    { unfold wrap64.
      pose proof (Z.div_mod a (2 ^ 64) ltac:(lia)) as Hdm.
      pose proof (Z.mod_pos_bound a (2 ^ 64) ltac:(lia)) as Hb.
      destruct (a mod 2 ^ 64 >=? 2 ^ 63) eqn:E.
      - assert (0 <= a / 2 ^ 64) by (apply Z.div_pos; lia). lia.
      - rewrite Z.geb_leb in E. apply Z.leb_gt in E.
        assert (1 <= a / 2 ^ 64) by nia. lia. }
    pose proof (Z.quot_rem' (wrap64 a) 100) as Hq.
    pose proof (Z.rem_bound_abs (wrap64 a) 100 ltac:(lia)) as Hr.
    pose proof (Z.mul_div_le a 100 ltac:(lia)) as Hd.
    pose proof (Z.mod_pos_bound a 100 ltac:(lia)) as Hm.
    pose proof (Z.div_mod a 100 ltac:(lia)) as Hdm.
    rewrite Z.abs_lt in Hr. lia.
  - intros H. pose proof (Z.quot_rem' (wrap64 (max * 90)) 100) as Hq.
    pose proof (Z.rem_nonpos (wrap64 (max * 90)) 100 ltac:(lia)) as Hr.
    pose proof (Z.rem_bound_abs (wrap64 (max * 90)) 100 ltac:(lia)) as Hb.
    rewrite Z.abs_lt in Hb. lia.
Qed.

Lemma os_Stat_err (fs : gmap string bytes) (q : string) (e : error) :
  os_Stat fs q = Err e -> e ≠ ErrNotExist.
Proof. unfold os_Stat. destruct (_ || _); by intros [= <-]. Qed.

Lemma os_ReadFile_err (fs : gmap string bytes) (q : string) (e : error) :
  os_ReadFile fs q = Err e -> e ≠ ErrNotExist.
Proof. unfold os_ReadFile. destruct (fs !! q); [done|]. destruct (is_dir fs q); by intros [= <-]. Qed.

(** X10.  When the cache lookup [Get] answers anything but
    [os.ErrNotExist], [Download] returns that answer (the entry's data, or
    the error) and neither looks at the upload directory nor contacts the
    bucket. *)
Theorem Download_cache_answer {C : Type}
  (Get : C -> string -> result fileCacheEntry)
  (Put : C -> string -> bytes -> C * result fileCacheEntry)
  (conf : Conf) (c : C) (fs remote : gmap string bytes) (p : string) :
  is_ErrNotExist (Get c (Clean p)) = false ->
  Download Get Put conf c fs remote p =
    (c, [EvCacheGet (Clean p)],
     match Get c (Clean p) with Ok fce => Ok (Data fce) | Err e => Err e end).
Proof.
  intros H. unfold Download.
  destruct (Get c (Clean p)) as [fce|e] eqn:E; simpl in H |- *; [done|].
  rewrite H. simpl. rewrite H. done.
Qed.

Lemma Download_cache_answer_witness :
  Download (fun (_ : unit) (_ : string) => Err (Errorf "cache"))
    put_entry conf_sync tt ∅ (<["a" := [Byte.x07]]> ∅) "a" =
    (tt, [EvCacheGet "a"], Err (Errorf "cache")).
Proof.
  apply (Download_cache_answer (fun (_ : unit) (_ : string) => Err (Errorf "cache"))
           put_entry conf_sync tt ∅ (<["a" := [Byte.x07]]> ∅) "a").
  reflexivity.
Defined.

(** X11.  [Download] contacts the bucket only for the cleaned path, and
    only when the cache answered [os.ErrNotExist], the file was found and
    read in the upload directory, and the cache's [Put] of its bytes then
    answered [os.ErrNotExist] too: a staged file that is missing or
    unreadable, which [os.Stat] and [os.ReadFile] report as a
    [*PathError], never leads to the bucket. *)
Theorem Download_remote_only_after_put_miss {C : Type}
  (Get : C -> string -> result fileCacheEntry)
  (Put : C -> string -> bytes -> C * result fileCacheEntry)
  (conf : Conf) (c c' : C) (fs remote : gmap string bytes) (p key : string)
  (evs : list event) (r : result bytes) :
  Download Get Put conf c fs remote p = (c', evs, r) ->
  EvS3Get key ∈ evs ->
  key = Clean p /\ Get c (Clean p) = Err ErrNotExist /\
  exists data c1,
    os_ReadFile fs (Clean (UploadDir conf +:+ "/" +:+ Clean p)) = Ok data /\
    Put c (Clean p) data = (c1, Err ErrNotExist).
Proof.
  unfold Download.
  destruct (Get c (Clean p)) as [fce|e] eqn:Eg; simpl.
  { intros [= _ <- _] Hin. apply list_elem_of_In in Hin. simpl in Hin. naive_solver. }
  destruct e; simpl;
    try (intros [= _ <- _] Hin; apply list_elem_of_In in Hin; simpl in Hin; naive_solver).
  destruct (os_Stat fs _) as [u|e1] eqn:Es; simpl.
  - destruct (os_ReadFile fs _) as [data|e2] eqn:Er; simpl.
    + destruct (Put c (Clean p) data) as [c1 [fce|e3]] eqn:Ep; simpl;
        [intros [= _ <- _] Hin; apply list_elem_of_In in Hin; simpl in Hin; naive_solver|].
      destruct e3; simpl;
        try (intros [= _ <- _] Hin; apply list_elem_of_In in Hin; simpl in Hin; naive_solver).
      destruct (S3FileDownload remote (Clean p)) as [body|e4]; simpl.
      1: destruct (Put c1 (Clean p) body) as [c2 [fce2|e5]]; simpl.
      all: intros [= _ <- _] Hin; apply list_elem_of_In in Hin; simpl in Hin.
      all: split; [naive_solver|]; split; [done|]; eauto.
    + pose proof (os_ReadFile_err _ _ _ Er) as Hne.
      destruct e2; simpl; try done;
        intros [= _ <- _] Hin; apply list_elem_of_In in Hin; simpl in Hin; naive_solver.
  - pose proof (os_Stat_err _ _ _ Es) as Hne.
    destruct e1; simpl; try done;
      intros [= _ <- _] Hin; apply list_elem_of_In in Hin; simpl in Hin; naive_solver.
Qed.

Lemma Download_remote_only_after_put_miss_witness :
  exists (data : bytes) (c1 : unit),
    os_ReadFile (<["up/a" := [Byte.x01]]> ∅) (Clean (UploadDir conf_sync +:+ "/" +:+ Clean "a"))
      = Ok data /\
    put_miss tt (Clean "a") data = (c1, Err ErrNotExist).
Proof.
  refine (proj2 (proj2 (Download_remote_only_after_put_miss get_miss put_miss conf_sync tt tt
    (<["up/a" := [Byte.x01]]> ∅) (<["a" := [Byte.x07]]> ∅) "a" "a"
    [EvCacheGet "a"; EvStat "up/a"; EvReadFile "up/a"; EvCachePut "a"; EvS3Get "a";
     EvCachePut "a"]
    (Err ErrNotExist) _ _))).
  - vm_compute. reflexivity.
  - apply list_elem_of_In. simpl. tauto.
Defined.

Lemma MkdirAll_sub (dirs : gset string) (fs : gmap string bytes) (dir : string)
  (dirs1 : gset string) :
  MkdirAll dirs fs dir = Some dirs1 -> dirs ⊆ dirs1.
Proof. unfold MkdirAll. destruct (existsb _ _); [done|]. intros [= <-]. set_solver. Qed.

Lemma Upload_cases (conf : Conf) (dirs dirs' : gset string) (fs fs' : gmap string bytes)
  (filePath : string) (srcR : reader) (res : result unit) :
  Upload conf dirs fs filePath srcR = (dirs', fs', res) ->
  dirs ⊆ dirs' /\
  ((fs' = fs /\ res ≠ Ok tt) \/
   (fs' = <[Clean (UploadDir conf +:+ "/" +:+ filePath) := rd_data srcR]> fs /\
    (res = Ok tt <-> rd_err srcR = false))).
Proof.
  unfold Upload.
  destruct (MkdirAll dirs fs _) as [dirs1|] eqn:Hm; [|intros [= <- <- <-]; split; [done|]; by left].
  pose proof (MkdirAll_sub _ _ _ _ Hm) as Hsub.
  destruct (isdir_in dirs1 fs _); [intros [= <- <- <-]; split; [done|]; by left|].
  destruct (rd_err srcR) eqn:He; intros [= <- <- <-]; (split; [done|]); right;
    (split; [done|]); done.
Qed.

(** X13.  Round trip: after a successful [Upload] of [data] at a clean
    path [p], a [Download p] that misses the cache finds the staged file,
    reads exactly [data] from it and hands it to the cache's [Put], whose
    entry it returns, without contacting the bucket. *)
Theorem Upload_then_Download {C : Type}
  (Get : C -> string -> result fileCacheEntry)
  (Put : C -> string -> bytes -> C * result fileCacheEntry)
  (conf : Conf) (dirs dirs' : gset string) (fs fs' remote : gmap string bytes)
  (p : string) (data : bytes) (c c' : C) (fce : fileCacheEntry) :
  Clean p = p ->
  Upload conf dirs fs p {| rd_data := data; rd_err := false |} = (dirs', fs', Ok tt) ->
  Get c p = Err ErrNotExist ->
  Put c p data = (c', Ok fce) ->
  Download Get Put conf c fs' remote p =
    (c', [EvCacheGet p; EvStat (Clean (UploadDir conf +:+ "/" +:+ p));
          EvReadFile (Clean (UploadDir conf +:+ "/" +:+ p)); EvCachePut p],
     Ok (Data fce)).
Proof.
  intros Hp Hup Hget Hput.
  destruct (Upload_cases _ _ _ _ _ _ _ _ Hup) as [_ [[_ Hne]|[Hfs _]]]; [done|].
  subst fs'. unfold Download. rewrite Hp, Hget. simpl.
  unfold os_Stat, os_ReadFile. rewrite lookup_insert_eq. simpl.
  rewrite Hput. reflexivity.
Qed.

Lemma Upload_then_Download_witness :
  Download get_miss put_entry conf_sync tt
    (snd (fst (Upload conf_sync ∅ ∅ "a" {| rd_data := [Byte.x01]; rd_err := false |}))) ∅ "a" =
    (tt, [EvCacheGet "a"; EvStat (Clean (UploadDir conf_sync +:+ "/" +:+ "a"));
          EvReadFile (Clean (UploadDir conf_sync +:+ "/" +:+ "a")); EvCachePut "a"],
     Ok (Data {| Data := [Byte.x01]; InMemory := true; Size := 1 |})).
Proof.
  refine (Upload_then_Download get_miss put_entry conf_sync ∅
    (fst (fst (Upload conf_sync ∅ ∅ "a" {| rd_data := [Byte.x01]; rd_err := false |}))) ∅
    (snd (fst (Upload conf_sync ∅ ∅ "a" {| rd_data := [Byte.x01]; rd_err := false |}))) ∅
    "a" [Byte.x01] tt tt {| Data := [Byte.x01]; InMemory := true; Size := 1 |} _ _ _ _);
    vm_compute; reflexivity.
Defined.




Lemma S3SyncCycles_fixed (conf : Conf) (w : SyncWorld) :
  (exists evs e, S3SyncOnce conf w = (w, evs, e)) ->
  forall n, fst (S3SyncCycles n conf w) = w.
Proof.
  intros (evs & e & Hw) n. induction n as [|n IH]; [done|].
  simpl. rewrite Hw. destruct (S3SyncCycles n conf w) as [w2 evs2]. done.
Qed.



Lemma prefix_slash (s : string) : String.prefix "/" (String "/" s) = true.
Proof. by destruct s. Qed.

Lemma Clean_rooted (p : string) :
  String.prefix "/" p = true -> exists s, Clean p = String "/" s.
Proof.
  intros H. unfold Clean. destruct p as [|a p']; [discriminate|].
  cbv zeta. rewrite H. eexists. reflexivity.
Qed.

Lemma elem_of_insert_sorted (x y : string) (l : list string) :
  y ∈ insert_sorted x l <-> y = x \/ y ∈ l.
Proof.
  induction l as [|z l IH]; simpl.
  - rewrite list_elem_of_singleton, elem_of_nil. tauto.
  - destruct (String.leb x z); rewrite !elem_of_cons; [tauto|]. rewrite IH. tauto.
Qed.

Lemma elem_of_sort_strings (y : string) (l : list string) :
  y ∈ sort_strings l <-> y ∈ l.
Proof.
  induction l as [|z l IH]; simpl; [done|].
  rewrite elem_of_insert_sorted, elem_of_cons, IH. done.
Qed.

Lemma glob_entries_rooted (dir : string) (fs : gmap string bytes) (p : string) :
  String.prefix "/" dir = true -> p ∈ glob_entries dir fs -> String.prefix "/" p = true.
Proof.
  intros Hd Hp. unfold glob_entries in Hp.
  destruct (Clean_rooted dir Hd) as [s Hs]. rewrite Hs in Hp. simpl in Hp.
  apply elem_of_sort_strings, elem_of_remove_dups, list_elem_of_omap in Hp
    as (k & _ & Hk).
  destruct (String.prefix _ k); [|discriminate]. injection Hk as <-. apply prefix_slash.
Qed.

Lemma Rel_empty_rooted (p : string) :
  String.prefix "/" p = true -> Rel "" p = None.
Proof.
  intros H. destruct (Clean_rooted p H) as [s Hs].
  unfold Rel. cbv zeta. rewrite Hs, prefix_slash. reflexivity.
Qed.

(** X16.  With the configuration [CmdExecute] builds ([Conf.CacheDir]
    left empty) and an absolute upload directory, as the default
    [/var/edgie/cache/upload] is, [filepath.Rel] fails on every staged
    entry: however many sync passes run, nothing is uploaded and nothing
    is removed. *)
Theorem S3SyncCycles_absolute_upload_dir (n : nat) (conf : Conf) (w : SyncWorld) :
  CacheDir conf = "" -> String.prefix "/" (UploadDir conf) = true ->
  fst (S3SyncCycles n conf w) = w.
Proof.
  intros Hc Hu. apply S3SyncCycles_fixed.
  unfold S3SyncOnce.
  destruct (glob_entries (UploadDir conf) (fs w)) as [|p l] eqn:Hg; [by eexists _, _|].
  assert (String.prefix "/" p = true) as Hp.
  { apply (glob_entries_rooted (UploadDir conf) (fs w)); [done|]. rewrite Hg. by left. }
  simpl. rewrite Hc, (Rel_empty_rooted p Hp). by eexists _, _.
Qed.

Lemma S3SyncCycles_absolute_upload_dir_witness :
  fst (S3SyncCycles 2 conf_default
         {| fs := <["/var/edgie/cache/upload/a" := [Byte.x01]]> ∅; remote := ∅;
            put_fail := ∅ |}) =
  {| fs := <["/var/edgie/cache/upload/a" := [Byte.x01]]> ∅; remote := ∅; put_fail := ∅ |}.
Proof.
  refine (S3SyncCycles_absolute_upload_dir 2 conf_default _ _ _); reflexivity.
Defined.
